(** * ScriNS: the pressure-correction step [calc_p] and the collocated time loops

    A shallow embedding of
    - [PYTHON/Discretization/calc_p.py],
    - the time loops of [PYTHON/test-obstacles-collocated.py],
      [PYTHON/test-thermal-plumes-collocated.py] and
      [PYTHON/scrins/tests/test_thermally_driven_cavity_collocated.py].

    Python objects live in a store of arrays addressed by location, so that
    in-place assignment ([a[:] = e]) and sharing are modelled as the
    interpreter has them.  Statements run in a state-and-exception monad that
    also records what a run prints and which functions it calls. *)

From Stdlib Require Import PrimFloat ZArith QArith Qcanon Qcabs List String.
From Stdlib Require FloatAxioms.
From stdpp Require Import gmap list strings numbers.

Local Open Scope string_scope.
Local Open Scope list_scope.
Local Open Scope nat_scope.

(** ** Scalars

    The arrays hold numpy scalars.  The operations the sources use on them
    are collected in one interface; it is instantiated below with IEEE
    binary64 (what numpy computes with) and with exact rationals. *)

Class Num (R : Type) := {
  fzero : R;
  fadd : R → R → R;
  fsub : R → R → R;
  fmul : R → R → R;
  fdiv : R → R → R;
  fabs : R → R;
  fmax : R → R → R;
  (** a natural number as a scalar: element counts, whole literals *)
  fnat : nat → R;
  (** truth value of a scalar: [x != 0] *)
  ftruth : R → bool
}.

(** *** binary64 *)

Fixpoint f64_nat (n : nat) : float :=
  match n with
  | O => 0%float
  | S k => (f64_nat k + 1)%float
  end.

(** numpy's [maximum] propagates NaN. *)
Definition f64_max (a b : float) : float :=
  if PrimFloat.is_nan a then a
  else if PrimFloat.is_nan b then b
  else if PrimFloat.ltb a b then b else a.

Definition f64_truth (x : float) : bool := negb (PrimFloat.eqb x 0%float).

#[export] Instance f64_num : Num float := {|
  fzero := 0%float;
  fadd := PrimFloat.add;
  fsub := PrimFloat.sub;
  fmul := PrimFloat.mul;
  fdiv := PrimFloat.div;
  fabs := PrimFloat.abs;
  fmax := f64_max;
  fnat := f64_nat;
  ftruth := f64_truth
|}.

(** *** exact rationals *)





(** ** Arrays

    A three-dimensional numpy array: its shape and its buffer in C order
    (the last index runs fastest).  One-dimensional vectors are plain lists. *)

Record ndarray (A : Type) := NdArray {
  shape : nat * nat * nat;
  data : list A
}.
Arguments NdArray {A} _ _.
Arguments shape {A} _.
Arguments data {A} _.

#[export] Instance ndarray_inhabited A : Inhabited (ndarray A) :=
  populate (NdArray (0, 0, 0) []).

(** Exceptions a statement can end in. *)
Inductive exn :=
  | ValueError      (* numpy: shapes do not fit, reduction of an empty array *)
  | DanglingRef     (* a location that holds no array; no Python object does *)
  | Raised (who : string).  (* raised inside a function that is not modelled *)

Inductive res (A : Type) :=
  | Ret (a : A)
  | Raise (e : exn).
Arguments Ret {A} _.
Arguments Raise {A} _.

Module np.
Section ops.
Context {R : Type} `{Num R}.

(** [prod(rc)]: the number of cells of a shape. *)
Definition prod (rc : nat * nat * nat) : nat :=
  let '(nx, ny, nz) := rc in nx * ny * nz.

(** The buffer of a numpy array always has [prod(shape)] elements. *)
Definition wf {A} (a : ndarray A) : Prop := length (data a) = prod (shape a).

Definition zeros (rc : nat * nat * nat) : ndarray R :=
  NdArray rc (replicate (prod rc) fzero).

Definition full {A} (rc : nat * nat * nat) (c : A) : ndarray A :=
  NdArray rc (replicate (prod rc) c).

(** [a[i,j,k]] for an index inside the shape. *)
Definition item {A} (a : ndarray A) (ijk : nat * nat * nat) : option A :=
  let '(nx, ny, nz) := shape a in
  let '(i, j, k) := ijk in
  if decide (i < nx ∧ j < ny ∧ k < nz) then data a !! ((i * ny + j) * nz + k)
  else None.

(** Element-wise operation of an array with a scalar. *)
Definition map_array {A B} (f : A → B) (a : ndarray A) : ndarray B :=
  NdArray (shape a) (f <$> data a).

(** Element-wise operation of two arrays of one shape, with no broadcasting:
    what the functions modelled from the spec use, where a shape mismatch is
    an error. *)
Definition zip_array {A B C} (f : A → B → C) (a : ndarray A) (b : ndarray B)
    : res (ndarray C) :=
  if decide (shape a = shape b) then Ret (NdArray (shape a) (zip_with f (data a) (data b)))
  else Raise ValueError.

(** numpy's broadcasting, for arrays of three dimensions: an extent of 1 is
    stretched to the extent asked for, any other extent must be the one
    asked for; numpy raises ValueError otherwise.  An array that has the
    shape already is returned as it is. *)
Definition broadcast_to {A} (a : ndarray A) (rc : nat * nat * nat) : res (ndarray A) :=
  let '(ax, ay, az) := shape a in
  let '(nx, ny, nz) := rc in
  if decide (shape a = rc) then Ret a
  else if decide ((ax = nx ∨ ax = 1) ∧ (ay = ny ∨ ay = 1) ∧ (az = nz ∨ az = 1)) then
    Ret (NdArray rc
           (i ← seq 0 nx; j ← seq 0 ny; k ← seq 0 nz;
            option_list
              (data a !! (((if decide (ax = 1) then 0 else i) * ay
                           + (if decide (ay = 1) then 0 else j)) * az
                          + (if decide (az = 1) then 0 else k)))))
  else Raise ValueError.

(** The common extent of two extents, if they fit. *)
Definition extent (a b : nat) : option nat :=
  if decide (a = b) then Some a
  else if decide (a = 1) then Some b
  else if decide (b = 1) then Some a
  else None.

Definition broadcast_shapes (s1 s2 : nat * nat * nat) : option (nat * nat * nat) :=
  let '(ax, ay, az) := s1 in
  let '(bx, by_, bz) := s2 in
  match extent ax bx, extent ay by_, extent az bz with
  | Some x, Some y, Some z => Some (x, y, z)
  | _, _, _ => None
  end.

(** [a * b], [a + b]: element-wise on the two arrays broadcast to their
    common shape. *)
Definition binop {A B C} (f : A → B → C) (a : ndarray A) (b : ndarray B)
    : res (ndarray C) :=
  match broadcast_shapes (shape a) (shape b) with
  | Some rc =>
      match broadcast_to a rc, broadcast_to b rc with
      | Ret a', Ret b' => Ret (NdArray rc (zip_with f (data a') (data b')))
      | _, _ => Raise ValueError
      end
  | None => Raise ValueError
  end.

(** [a.sum()], in the order in which numpy adds up a buffer ([pairwise_sum]
    of its [add] loop).  Fewer than eight elements are added one after the
    other, starting from 0.  Otherwise eight running sums start as the first
    eight elements, take up the following elements eight at a time, and are
    added as [((r0+r1)+(r2+r3))+((r4+r5)+(r6+r7))]; the elements left over,
    fewer than eight, are added one after the other. *)
Fixpoint unrolled (r0 r1 r2 r3 r4 r5 r6 r7 : R) (xs : list R) : R :=
  match xs with
  | x0 :: x1 :: x2 :: x3 :: x4 :: x5 :: x6 :: x7 :: rest =>
      unrolled (fadd r0 x0) (fadd r1 x1) (fadd r2 x2) (fadd r3 x3)
               (fadd r4 x4) (fadd r5 x5) (fadd r6 x6) (fadd r7 x7) rest
  | _ =>
      foldl fadd
        (fadd (fadd (fadd r0 r1) (fadd r2 r3)) (fadd (fadd r4 r5) (fadd r6 r7))) xs
  end.

Definition block (xs : list R) : R :=
  match xs with
  | x0 :: x1 :: x2 :: x3 :: x4 :: x5 :: x6 :: x7 :: rest =>
      unrolled x0 x1 x2 x3 x4 x5 x6 x7 rest
  | _ => foldl fadd fzero xs
  end.

(** A buffer of more than 128 elements is cut in two, the first part half as
    long, rounded down to a multiple of eight, and the sums of the parts are
    added.  [fuel] bounds the depth of the cutting; the length of the buffer
    is enough. *)
Fixpoint pairwise (fuel : nat) (xs : list R) : R :=
  match fuel with
  | S fuel' =>
      if decide (length xs ≤ 128) then block xs
      else
        let n2 := length xs / 2 - (length xs / 2) mod 8 in
        fadd (pairwise fuel' (take n2 xs)) (pairwise fuel' (drop n2 xs))
  | O => block xs
  end.

(** The reduction starts from the identity of the addition, 0. *)
Definition sum (a : ndarray R) : R :=
  fadd fzero (pairwise (length (data a)) (data a)).

(** [a.mean()]: the sum over the number of elements. *)
Definition mean (a : ndarray R) : R := fdiv (sum a) (fnat (length (data a))).

(** [a.max()]; numpy raises ValueError for an empty array. *)
Definition max (a : ndarray R) : res R :=
  match data a with
  | [] => Raise ValueError
  | x :: xs => Ret (foldl fmax x xs)
  end.

(** [abs(a)] *)
Definition abs (a : ndarray R) : ndarray R := map_array fabs a.

(** [a.any()] *)
Definition any (a : ndarray R) : bool := existsb ftruth (data a).

(** [reshape(a, n)], to a vector, and [reshape(v, rc)], to three dimensions:
    both keep the buffer and raise ValueError when the sizes differ. *)
Definition ravel (a : ndarray R) (n : nat) : res (list R) :=
  if decide (length (data a) = n) then Ret (data a) else Raise ValueError.

Definition reshape (v : list R) (rc : nat * nat * nat) : res (ndarray R) :=
  if decide (length v = prod rc) then Ret (NdArray rc v) else Raise ValueError.

(** The sub-array [a[li,lj,lk]] picked by three index lists. *)
Definition pick {A} `{Inhabited A} (a : ndarray A) (li lj lk : list nat) : ndarray A :=
  let '(nx, ny, nz) := shape a in
  NdArray (length li, length lj, length lk)
    (i ← li; j ← lj; k ← lk; [data a !!! ((i * ny + j) * nz + k)]).

End ops.
End np.

#[export] Instance Num_inhabited `{Num R} : Inhabited R := populate fzero.

(** ** Constants

    [Constants/] is not among the sources; the three boundary-condition
    kinds, the four positions of an unknown and the six sides of the domain
    are the closed enumerations the drivers use them as. *)

Inductive bc_kind := DIRICHLET | NEUMANN | OUTLET.

#[export] Instance bc_kind_eq_dec : EqDecision bc_kind.
Proof. solve_decision. Defined.

#[export] Instance bc_kind_inhabited : Inhabited bc_kind := populate DIRICHLET.

Module Position.
(** [C] (cell centre) and the staggered positions [X], [Y], [Z]. *)
Inductive t := C | X | Y | Z.
End Position.

Module Compass.
Inductive t := W | E | S | N | B | T.

#[export] Instance eq_dec : EqDecision t.
Proof. solve_decision. Defined.

Definition all : list t := [W; E; S; N; B; T].
End Compass.

(** ** Unknowns and the store

    An unknown (the object [create_unknown] returns) refers to its arrays:
    [val], [old] and, for each side, the boundary record with [typ] and
    [val].  The arrays themselves are in the store. *)

Definition loc := positive.

Module Bnd.
Record t := Make { typ : loc; val : loc }.
End Bnd.

Record unknown := Unknown {
  name : string;
  pos : Position.t;
  val : loc;
  old : loc;
  bnd : Compass.t → Bnd.t
}.

Section store.
Context {R : Type}.

Record heap := Heap {
  floats : gmap loc (ndarray R);
  kinds : gmap loc (ndarray bc_kind)
}.

(** What a function that only reads an unknown sees of it. *)
Record field_view := FieldView {
  v_pos : Position.t;
  v_val : ndarray R;
  v_old : ndarray R;
  v_bnd : Compass.t → ndarray bc_kind * ndarray R
}.

(** An argument as a call site passes it. *)
Inductive arg {Mat : Type} :=
  | AField (f : unknown)
  | ARef (l : loc)               (* an array object of the caller *)
  | ATmp (a : ndarray R)         (* a temporary array: [zeros(rc)], [dt/rho] *)
  | AVec (v : list R)
  | AMat (m : Mat)
  | AScalar (x : R)
  | ATuple (a b c : arg)
  | AStr (s : string).

Definition AFields {Mat} (uvw : unknown * unknown * unknown) : @arg Mat :=
  ATuple (AField uvw.1.1) (AField uvw.1.2) (AField uvw.2).

Definition ARefs {Mat} (ls : loc * loc * loc) : @arg Mat :=
  ATuple (ARef ls.1.1) (ARef ls.1.2) (ARef ls.2).

(** What a run leaves behind for an observer: lines printed and calls made. *)
Inductive event {Mat : Type} :=
  | Print (text : string) (x : R)
  | PrintInfo (text : string) (info : Z)
  | PrintTimeStep (ts : nat)
  | Call (f : string) (args : list (@arg Mat)).

End store.
Arguments heap : clear implicits.
Arguments field_view : clear implicits.
Arguments arg : clear implicits.
Arguments event : clear implicits.

(** ** The modules the sources call

    [calc_p.py] and the drivers import these functions from modules of the
    repository that are not among the sources ([Discretization/],
    [Operators/], [Constants/]).  They are parameters of the model.  The
    assembling and measuring functions are pure functions of what they read
    (spec 4.1 to 4.3); the transport and correction steps update fields in
    place, so they take and return the store. *)

Class Discretization (R Mat : Type) := {
  (** [Constants]: the tolerance passed to the solver *)
  TOL : R;
  (** [create_matrix(phi, inn, mu, dxyz, obst, obc)]: the system matrix and a
      right-hand side *)
  create_matrix :
    field_view R → ndarray R → ndarray R → ndarray R * ndarray R * ndarray R →
    ndarray R → string → Mat * ndarray R;
  (** [vol_balance(uvwf, dxyz, obst)] *)
  vol_balance :
    field_view R * field_view R * field_view R →
    ndarray R * ndarray R * ndarray R → ndarray R → ndarray R;
  (** [cfl_max(uvw, dt, dxyz)] *)
  cfl_max :
    field_view R * field_view R * field_view R → R →
    ndarray R * ndarray R * ndarray R → R;
  (** [calc_t(t, uvwf, rho_cap, kappa, dt, dxyz, obst)] *)
  calc_t :
    unknown → unknown * unknown * unknown → ndarray R → loc → R →
    loc * loc * loc → loc → heap R → res unit * heap R;
  (** [calc_uvw(uvw, uvwf, rho, mu, p_tot, e_f, dt, dxyz, obst)] *)
  calc_uvw :
    unknown * unknown * unknown → unknown * unknown * unknown → loc → loc →
    ndarray R → ndarray R * ndarray R * ndarray R → R → loc * loc * loc → loc →
    heap R → res unit * heap R;
  (** [corr_uvw(uvw, p, rho, dt, dxyz, obst)] *)
  corr_uvw :
    unknown * unknown * unknown → unknown → loc → R → loc * loc * loc → loc →
    heap R → res unit * heap R;
  (** [obst_zero_val(pos, val, obst)]: a new array *)
  obst_zero_val : Position.t → ndarray R → ndarray R → res (ndarray R);
  (** [adj_n_bnds(phi)] *)
  adj_n_bnds : unknown → heap R → res unit * heap R
}.

(** [scipy.sparse.linalg.bicgstab(A, b, tol=...)] returns the pair of the
    iterate and the integer [info]: 0 on convergence, the number of
    iterations when the tolerance was not reached, negative on breakdown. *)
Class Solver (R Mat : Type) := {
  bicgstab : Mat → list R → R → list R * Z
}.

(** ** Statements *)

Section monad.
Context {R Mat : Type}.

Record run (A : Type) := Run {
  outcome : res A;
  final : heap R;
  trace : list (event R Mat)
}.
Arguments Run {A} _ _ _.
Arguments outcome {A} _.
Arguments final {A} _.
Arguments trace {A} _.

Definition M (A : Type) : Type := heap R → run A.

Definition ret {A} (a : A) : M A := λ h, Run (Ret a) h [].

Definition bind {A B} (m : M A) (k : A → M B) : M B := λ h,
  let r := m h in
  match outcome r with
  | Ret a => let r' := k a (final r) in
             Run (outcome r') (final r') (trace r ++ trace r')
  | Raise e => Run (Raise e) (final r) (trace r)
  end.

Definition raise {A} (e : exn) : M A := λ h, Run (Raise e) h [].

Definition lift {A} (r : res A) : M A :=
  match r with Ret a => ret a | Raise e => raise e end.

Definition emit (e : event R Mat) : M unit := λ h, Run (Ret tt) h [e].

(** Reading an array object. *)
Definition load (l : loc) : M (ndarray R) := λ h,
  match floats h !! l with
  | Some a => Run (Ret a) h []
  | None => Run (Raise DanglingRef) h []
  end.

Definition load_kinds (l : loc) : M (ndarray bc_kind) := λ h,
  match kinds h !! l with
  | Some a => Run (Ret a) h []
  | None => Run (Raise DanglingRef) h []
  end.

(** [x[:] = a]: the buffer of the object at [l] is overwritten with [a]
    broadcast to the shape of the object, which it keeps; numpy raises
    ValueError when [a] cannot be broadcast to it. *)
Definition store (l : loc) (a : ndarray R) : M unit := λ h,
  match floats h !! l with
  | Some a0 =>
      match np.broadcast_to a (shape a0) with
      | Ret a' => Run (Ret tt) (Heap (<[l := a']> (floats h)) (kinds h)) []
      | Raise e => Run (Raise e) h []
      end
  | None => Run (Raise DanglingRef) h []
  end.

(** A step of a module that is a parameter: the call is recorded, then it
    runs on the store. *)
Definition extern (f : string) (args : list (arg R Mat))
    (step : heap R → res unit * heap R) : M unit := λ h,
  let '(r, h') := step h in Run r h' [Call f args].

End monad.
Arguments run : clear implicits.
Arguments M : clear implicits.
Arguments Run {R Mat A} _ _ _.
Arguments outcome {R Mat A} _.
Arguments final {R Mat A} _.
Arguments trace {R Mat A} _.

Notation "x <- m ;; k" := (bind m (λ x, k))
  (at level 62, m at next level, right associativity).
Notation "m ;;; k" := (bind m (λ _, k))
  (at level 62, right associativity).

(** [m] started in [h] returns [a], leaves [h'] and emits [tr]. *)
Definition runs {R Mat A} (m : M R Mat A) (h : heap R) (a : A) (h' : heap R)
    (tr : list (event R Mat)) : Prop :=
  m h = Run (Ret a) h' tr.

(** ** Reading an unknown *)

Section views.
Context {R Mat : Type}.

Definition view_bnd (b : Bnd.t) : M R Mat (ndarray bc_kind * ndarray R) :=
  t <- load_kinds (Bnd.typ b) ;;
  v <- load (Bnd.val b) ;;
  ret (t, v).

Definition view (f : unknown) : M R Mat (field_view R) :=
  v <- load (val f) ;;
  o <- load (old f) ;;
  bw <- view_bnd (bnd f Compass.W) ;;
  be <- view_bnd (bnd f Compass.E) ;;
  bs <- view_bnd (bnd f Compass.S) ;;
  bn <- view_bnd (bnd f Compass.N) ;;
  bb <- view_bnd (bnd f Compass.B) ;;
  bt <- view_bnd (bnd f Compass.T) ;;
  ret (FieldView (pos f) v o
         (λ d, match d with
               | Compass.W => bw | Compass.E => be
               | Compass.S => bs | Compass.N => bn
               | Compass.B => bb | Compass.T => bt
               end)).

Definition view3 (uvw : unknown * unknown * unknown)
    : M R Mat (field_view R * field_view R * field_view R) :=
  let '(u, v, w) := uvw in
  a <- view u ;; b <- view v ;; c <- view w ;; ret (a, b, c).

Definition load3 (dxyz : loc * loc * loc)
    : M R Mat (ndarray R * ndarray R * ndarray R) :=
  let '(dx, dy, dz) := dxyz in
  a <- load dx ;; b <- load dy ;; c <- load dz ;; ret (a, b, c).

End views.

(** ** [Discretization/calc_p.py] *)

Section calc_p.
Context {R Mat : Type} `{Num R} `{!Discretization R Mat} `{!Solver R Mat}.

(** [p.val[:] = p.val[:] - p.val.mean()] on the array read from [p.val]. *)
Definition anchor (a : ndarray R) : ndarray R :=
  np.map_array (λ v, fsub v (np.mean a)) a.

Definition calc_p (p : unknown) (uvwf : unknown * unknown * unknown)
    (rho : loc) (dt : R) (dxyz : loc * loc * loc) (obst : loc) : M R Mat unit :=
  (* Fetch the resolution *)
  p_val <- load (val p) ;;
  let rc := shape p_val in
  (* Create linear system *)
  p_view <- view p ;;
  rho_a <- load rho ;;
  d <- load3 dxyz ;;
  ob <- load obst ;;
  let dt_rho := np.map_array (fdiv dt) rho_a in
  emit (Call "create_matrix"
          [AField p; ATmp (np.zeros rc); ATmp dt_rho; ARefs dxyz; ARef obst; AStr "n"]) ;;;
  let '(A_p, b_p) := create_matrix p_view (np.zeros rc) dt_rho d ob "n" in
  (* Compute the source for the pressure: [obst] is not sent *)
  uvwf_v <- view3 uvwf ;;
  d <- load3 dxyz ;;
  emit (Call "vol_balance" [AFields uvwf; ARefs dxyz; ATmp (np.zeros rc)]) ;;;
  let b_p := vol_balance uvwf_v d (np.zeros rc) in
  err <- lift (np.max (np.abs b_p)) ;;
  emit (Print "Maximum volume error before correction: " err) ;;;
  emit (Print "Volume imbalance before correction    : " (np.sum b_p)) ;;;
  (* Solve for pressure *)
  b <- lift (np.ravel b_p (np.prod rc)) ;;
  emit (Call "bicgstab" [AMat A_p; AVec b; AScalar TOL]) ;;;
  let res := bicgstab A_p b TOL in
  x <- lift (np.reshape (fst res) rc) ;;
  store (val p) x ;;;
  emit (PrintInfo "res[1] = " (snd res)) ;;;
  (* Anchor it to values around zero *)
  p_val <- load (val p) ;;
  store (val p) (anchor p_val) ;;;
  (* Set to zero in obstacle *)
  ob <- load obst ;;
  (if np.any ob then
     p_val <- load (val p) ;;
     ob <- load obst ;;
     emit (Call "obst_zero_val" [AStr "p.pos"; ARef (val p); ARef obst]) ;;;
     z <- lift (obst_zero_val (pos p) p_val ob) ;;
     store (val p) z
   else ret tt) ;;;
  (* Finally adjust the boundary values *)
  extern "adj_n_bnds" [AField p] (adj_n_bnds p).

End calc_p.


(** ** The time loops of the three collocated test programs *)

(** [Display/]: [print_time_step] prints the step number; [plot_isolines]
    ([display/plot_isolines.py]) reads its arguments and hands a figure to
    matplotlib, whose calls are not part of the model: it returns or raises. *)
Class Display (R : Type) := {
  plot_isolines :
    ndarray R → field_view R * field_view R * field_view R →
    list R * list R * list R → Position.t → res unit
}.

Section drivers.
Context {R Mat : Type} `{Num R} `{!Discretization R Mat} `{!Solver R Mat} `{!Display R}.

(** The variables of a program when it enters its time loop. *)
Record flow := Flow {
  rc : nat * nat * nat;
  uc : unknown; vc : unknown; wc : unknown;
  uf : unknown; vf : unknown; wf : unknown;
  p : unknown;
  rho : loc; mu : loc; obst : loc;
  dx : loc; dy : loc; dz : loc;
  xn : list R; yn : list R; zn : list R;
  dt : R
}.

(** What the two thermal programs have besides. *)
Record heat := Heat {
  t : unknown;
  kappa : loc; cap : loc
}.

(** [a.old[:] = a.val[:]] *)
Definition store_old (a : unknown) : M R Mat unit :=
  v <- load (val a) ;;
  store (old a) v.

(** [for ts in range(first, first + n): acc = body(ts, acc)] *)
Fixpoint for_range {A} (first n : nat) (body : nat → A → M R Mat A) (acc : A)
    : M R Mat A :=
  match n with
  | O => ret acc
  | S n' => acc' <- body first acc ;; for_range (S first) n' body acc'
  end.

(** The checks that end a time step. *)
Definition diagnostics (w : flow) : M R Mat unit :=
  let uvwf := (uf w, vf w, wf w) in
  let uvw := (uc w, vc w, wc w) in
  let dxyz := (dx w, dy w, dz w) in
  (* Compute volume balance for checking *)
  uvwf_v <- view3 uvwf ;;
  d <- load3 dxyz ;;
  ob <- load (obst w) ;;
  emit (Call "vol_balance" [AFields uvwf; ARefs dxyz; ARef (obst w)]) ;;;
  let err := vol_balance uvwf_v d ob in
  e <- lift (np.max (np.abs err)) ;;
  emit (Print "Maximum volume error after correction: " e) ;;;
  (* Check the CFL number too *)
  uvw_v <- view3 uvw ;;
  d <- load3 dxyz ;;
  emit (Call "cfl_max" [AFields uvw; AScalar (dt w); ARefs dxyz]) ;;;
  let cfl := cfl_max uvw_v (dt w) d in
  emit (Print "Maximum CFL number: " cfl).

(** [plot_isolines(phi, (uc,vc,wc), (xn,yn,zn), Z)] *)
Definition plot (w : flow) (phi : loc) : M R Mat unit :=
  a <- load phi ;;
  uvw_v <- view3 (uc w, vc w, wc w) ;;
  emit (Call "plot_isolines"
          [ARef phi; AFields (uc w, vc w, wc w);
           ATuple (AVec (xn w)) (AVec (yn w)) (AVec (zn w)); AStr "Z"]) ;;;
  lift (plot_isolines a uvw_v (xn w, yn w, zn w) Position.Z).

(** The pressure step and the two velocity corrections, as every program
    calls them. *)
Definition pressure_call (w : flow) : M R Mat unit :=
  emit (Call "calc_p"
          [AField (p w); AFields (uf w, vf w, wf w); ARef (rho w); AScalar (dt w);
           ARefs (dx w, dy w, dz w); ARef (obst w)]) ;;;
  calc_p (p w) (uf w, vf w, wf w) (rho w) (dt w) (dx w, dy w, dz w) (obst w).

Definition correct (w : flow) (uvw : unknown * unknown * unknown) : M R Mat unit :=
  extern "corr_uvw"
    [AFields uvw; AField (p w); ARef (rho w); AScalar (dt w);
     ARefs (dx w, dy w, dz w); ARef (obst w)]
    (corr_uvw uvw (p w) (rho w) (dt w) (dx w, dy w, dz w) (obst w)).

Definition momentum (w : flow) (p_tot : arg R Mat * ndarray R)
    (ef : arg R Mat * (ndarray R * ndarray R * ndarray R)) : M R Mat unit :=
  extern "calc_uvw"
    [AFields (uc w, vc w, wc w); AFields (uf w, vf w, wf w); ARef (rho w);
     ARef (mu w); p_tot.1; ef.1; AScalar (dt w); ARefs (dx w, dy w, dz w);
     ARef (obst w)]
    (calc_uvw (uc w, vc w, wc w) (uf w, vf w, wf w) (rho w) (mu w) p_tot.2 ef.2
       (dt w) (dx w, dy w, dz w) (obst w)).

Definition temperature (w : flow) (th : heat) : M R Mat unit :=
  rho_a <- load (rho w) ;;
  cap_a <- load (cap th) ;;
  rho_cap <- lift (np.binop fmul rho_a cap_a) ;;
  extern "calc_t"
    [AField (t th); AFields (uf w, vf w, wf w); ATmp rho_cap; ARef (kappa th);
     AScalar (dt w); ARefs (dx w, dy w, dz w); ARef (obst w)]
    (calc_t (t th) (uf w, vf w, wf w) rho_cap (kappa th) (dt w)
       (dx w, dy w, dz w) (obst w)).

Definition zeros_arg (w : flow) : arg R Mat * ndarray R :=
  (ATmp (np.zeros (rc w)), np.zeros (rc w)).

(** *** [test-obstacles-collocated.py], lines 107 to 152 *)

Definition obstacles_step (w : flow) (ts : nat) : M R Mat unit :=
  emit (PrintTimeStep ts) ;;;
  (* Store old values *)
  store_old (uc w) ;;;
  store_old (vc w) ;;;
  store_old (wc w) ;;;
  (* Momentum conservation *)
  let z := np.zeros (rc w) in
  momentum w (zeros_arg w) (ATuple (ATmp z) (ATmp z) (ATmp z), (z, z, z)) ;;;
  (* Pressure *)
  pressure_call w ;;;
  (* Velocity correction *)
  correct w (uc w, vc w, wc w) ;;;
  correct w (uf w, vf w, wf w) ;;;
  diagnostics w ;;;
  (* Visualisation *)
  if decide (ts mod 20 = 0) then plot w (val (p w)) else ret tt.

Definition obstacles_loop (w : flow) (ndt : nat) : M R Mat unit :=
  for_range 1 ndt (λ ts _, obstacles_step w ts) tt.

(** *** [test-thermal-plumes-collocated.py], lines 115 to 167 *)

Definition plumes_step (w : flow) (th : heat) (ts : nat) : M R Mat unit :=
  emit (PrintTimeStep ts) ;;;
  (* Store old values *)
  store_old (t th) ;;;
  store_old (uc w) ;;;
  store_old (vc w) ;;;
  store_old (wc w) ;;;
  (* Temperature (enthalpy) *)
  temperature w th ;;;
  (* Momentum conservation *)
  t_val <- load (val (t th)) ;;
  let z := np.zeros (rc w) in
  let buoyancy := np.map_array (fmul (fnat 150)) t_val in
  momentum w (zeros_arg w) (ATuple (ATmp z) (ATmp buoyancy) (ATmp z), (z, buoyancy, z)) ;;;
  (* Pressure *)
  pressure_call w ;;;
  (* Velocity correction *)
  correct w (uc w, vc w, wc w) ;;;
  correct w (uf w, vf w, wf w) ;;;
  diagnostics w ;;;
  (* Visualisation *)
  if decide (ts mod 150 = 0)
  then plot w (val (t th)) ;;; plot w (val (p w))
  else ret tt.

Definition plumes_loop (w : flow) (th : heat) (ndt : nat) : M R Mat unit :=
  for_range 1 ndt (λ ts _, plumes_step w th ts) tt.

(** *** [scrins/tests/test_thermally_driven_cavity_collocated.py], lines 120 to 173

    [p_tot] is rebound in every step; it is the accumulator of the loop. *)

Definition cavity_step (w : flow) (th : heat) (show_plot : bool) (ts : nat)
    (p_tot : ndarray R) : M R Mat (ndarray R) :=
  emit (PrintTimeStep ts) ;;;
  (* Store old values *)
  store_old (t th) ;;;
  store_old (uc w) ;;;
  store_old (vc w) ;;;
  store_old (wc w) ;;;
  (* Temperature (enthalpy) *)
  temperature w th ;;;
  (* Momentum conservation *)
  t_val <- load (val (t th)) ;;
  let z := np.zeros (rc w) in
  momentum w (ATmp p_tot, p_tot)
    (ATuple (ATmp z) (ARef (val (t th))) (ATmp z), (z, t_val, z)) ;;;
  (* Pressure *)
  pressure_call w ;;;
  p_val <- load (val (p w)) ;;
  p_tot' <- lift (np.binop fadd p_tot p_val) ;;
  (* Velocity correction *)
  correct w (uc w, vc w, wc w) ;;;
  correct w (uf w, vf w, wf w) ;;;
  diagnostics w ;;;
  (* Visualisation *)
  (if show_plot
   then if decide (ts mod 20 = 0) then plot w (val (t th)) else ret tt
   else ret tt) ;;;
  ret p_tot'.

Definition cavity_loop (w : flow) (th : heat) (show_plot : bool) (ndt : nat)
    : M R Mat (ndarray R) :=
  for_range 1 ndt (cavity_step w th show_plot) (np.zeros (rc w)).

End drivers.

(** ** The missing modules, as the spec describes them *)

Section spec_models.
Context {R Mat : Type} `{Num R}.

(** A statement as a step on the store. *)
Definition as_step (m : M R Mat unit) : heap R → res unit * heap R :=
  λ h, (outcome (m h), final (m h)).

(** The layer of interior cells next to a side: [a[:1,:,:]], [a[-1:,:,:]],
    [a[:,:1,:]], ... *)
Definition interior_next_to (d : Compass.t) (a : ndarray R) : ndarray R :=
  let '(nx, ny, nz) := shape a in
  match d with
  | Compass.W => np.pick a (seq 0 (min 1 nx)) (seq 0 ny) (seq 0 nz)
  | Compass.E => np.pick a (seq (nx - 1) (min 1 nx)) (seq 0 ny) (seq 0 nz)
  | Compass.S => np.pick a (seq 0 nx) (seq 0 (min 1 ny)) (seq 0 nz)
  | Compass.N => np.pick a (seq 0 nx) (seq (ny - 1) (min 1 ny)) (seq 0 nz)
  | Compass.B => np.pick a (seq 0 nx) (seq 0 ny) (seq 0 (min 1 nz))
  | Compass.T => np.pick a (seq 0 nx) (seq 0 ny) (seq (nz - 1) (min 1 nz))
  end.

Definition close_side (f : unknown) (d : Compass.t) : M R Mat unit :=
  a <- load (val f) ;;
  ty <- load_kinds (Bnd.typ (bnd f d)) ;;
  bv <- load (Bnd.val (bnd f d)) ;;
  tb <- lift (np.zip_array pair ty bv) ;;
  new <- lift (np.zip_array (λ tb x, if decide (tb.1 = NEUMANN) then x else tb.2)
                 tb (interior_next_to d a)) ;;
  store (Bnd.val (bnd f d)) new.

(** Modelled from the spec: [adj_n_bnds] ([Discretization/adj_n_bnds.py] is
    not among the sources).  Spec 4.4, phase 4: "reapply the
    zero-normal-gradient boundary closure (copy adjacent interior value into
    each Neumann boundary slab)"; spec 3: a boundary record holds "a
    per-face-cell boundary-condition kind" and a value array. *)
Definition adj_n_bnds_spec (f : unknown) : M R Mat unit :=
  close_side f Compass.W ;;;
  close_side f Compass.E ;;;
  close_side f Compass.S ;;;
  close_side f Compass.N ;;;
  close_side f Compass.B ;;;
  close_side f Compass.T.

(** A new array object. *)
Definition fresh_loc (h : heap R) : loc := fresh (dom (floats h) ∪ dom (kinds h)).

Definition alloc (a : ndarray R) : M R Mat loc := λ h,
  let l := fresh_loc h in
  Run (Ret l) (Heap (<[l := a]> (floats h)) (kinds h)) [].

Definition alloc_kinds (a : ndarray bc_kind) : M R Mat loc := λ h,
  let l := fresh_loc h in
  Run (Ret l) (Heap (floats h) (<[l := a]> (kinds h))) [].

(** The extent of a boundary slab of a field with resolution [res]. *)
Definition slab (d : Compass.t) (res : nat * nat * nat) : nat * nat * nat :=
  let '(nx, ny, nz) := res in
  match d with
  | Compass.W | Compass.E => (1, ny, nz)
  | Compass.S | Compass.N => (nx, 1, nz)
  | Compass.B | Compass.T => (nx, ny, 1)
  end.

Definition create_boundary (res : nat * nat * nat) (kind : bc_kind) (d : Compass.t)
    : M R Mat Bnd.t :=
  ty <- alloc_kinds (np.full (slab d res) kind) ;;
  v <- alloc (np.zeros (slab d res)) ;;
  ret (Bnd.Make ty v).

(** Modelled from the spec: [create_unknown] ([Discretization/create_unknown.py]
    is not among the sources).  Spec 6: "given a name, position tag,
    resolution tuple, and default boundary-condition kind, returns an
    initialized field with zeroed value/old_value arrays and six boundary
    records defaulted to that kind with zero values". *)
Definition create_unknown (name : string) (ps : Position.t) (res : nat * nat * nat)
    (kind : bc_kind) : M R Mat unknown :=
  v <- alloc (np.zeros res) ;;
  o <- alloc (np.zeros res) ;;
  bw <- create_boundary res kind Compass.W ;;
  be <- create_boundary res kind Compass.E ;;
  bs <- create_boundary res kind Compass.S ;;
  bn <- create_boundary res kind Compass.N ;;
  bb <- create_boundary res kind Compass.B ;;
  bt <- create_boundary res kind Compass.T ;;
  ret (Unknown name ps v o
         (λ d, match d with
               | Compass.W => bw | Compass.E => be
               | Compass.S => bs | Compass.N => bn
               | Compass.B => bb | Compass.T => bt
               end)).

End spec_models.

(** ** What the missing modules are assumed to do

    Read off the spec, as statements about the parameters. *)

Section contracts.
Context {R Mat : Type} `{Num R} `{!Discretization R Mat}.

(** Modelled from the spec: [obst_zero_val] ([Discretization/obst_zero_val.py]
    is not among the sources).  Spec 3: the mask "shares the cell resolution
    and is binary (0 = fluid, nonzero = solid)" and the field values of solid
    cells "are forced to zero"; 4.4: "force solid-obstacle cells to zero";
    7: a shape mismatch between field and mask is fatal. *)
Definition obst_zero_val_spec (v o : ndarray R) : res (ndarray R) :=
  np.zip_array (λ x m, if ftruth m then fzero else x) v o.

Definition obst_zero_val_as_specified : Prop :=
  ∀ ps v o, obst_zero_val ps v o = obst_zero_val_spec v o.

(** The arrays of an unknown that hold boundary values. *)
Definition bnd_vals (f : unknown) : list loc :=
  (λ d, Bnd.val (bnd f d)) <$> Compass.all.

(** The arrays of an unknown that a step updating it may write. *)
Definition footprint (f : unknown) : list loc := val f :: bnd_vals f.

(** [h'] differs from [h] at most in the contents of the arrays [ls]: no
    array is created or dropped, no boundary kind changes. *)
Definition same_outside (ls : list loc) (h h' : heap R) : Prop :=
  kinds h' = kinds h ∧
  dom (floats h') = dom (floats h) ∧
  ∀ l, l ∉ ls → floats h' !! l = floats h !! l.

(** The arrays a step may write. *)
Definition writes_within (ls : list loc) (step : heap R → res unit * heap R) : Prop :=
  ∀ h, same_outside ls h (step h).2.

(** Spec 4.4, phase 4: [adj_n_bnds] copies "adjacent interior value into each
    Neumann boundary slab": it writes boundary values of its unknown only. *)
Definition adj_n_bnds_writes_boundaries : Prop :=
  ∀ f, writes_within (bnd_vals f) (adj_n_bnds f).

(** Spec 4.5 and 4.6: the transport steps advance, and the correction step
    corrects, the values of the unknowns they are given; spec 3: boundary
    values may be updated during a run, boundary kinds are fixed.  So these
    steps write values and boundary values of the unknowns they update, and
    nothing else; in particular no [old] array. *)
Definition footprint3 (uvw : unknown * unknown * unknown) : list loc :=
  footprint uvw.1.1 ++ footprint uvw.1.2 ++ footprint uvw.2.

Definition transport_writes_values : Prop :=
  (∀ t uvwf rho_cap kappa dt dxyz obst,
     writes_within (footprint t) (calc_t t uvwf rho_cap kappa dt dxyz obst)) ∧
  (∀ uvw uvwf rho mu p_tot ef dt dxyz obst,
     writes_within (footprint3 uvw ++ footprint3 uvwf)
       (calc_uvw uvw uvwf rho mu p_tot ef dt dxyz obst)) ∧
  (∀ uvw p rho dt dxyz obst,
     writes_within (footprint3 uvw) (corr_uvw uvw p rho dt dxyz obst)).

End contracts.


(** ** What a call of [calc_p] does, written out *)

Section calc_p_performs.
Context {R Mat : Type} `{Num R} `{!Discretization R Mat} `{!Solver R Mat}.

(** The store in which the array of [p.val] holds [a]. *)
Definition with_val (p : unknown) (a : ndarray R) (h : heap R) : heap R :=
  Heap (<[val p := a]> (floats h)) (kinds h).

(** The phases of a call that returns, with what each one reads and
    leaves, and the lines and calls it emits, in order. *)
Definition calc_p_performs (p : unknown) (uvwf : unknown * unknown * unknown)
    (rho : loc) (dt : R) (dxyz : loc * loc * loc) (obst : loc)
    (h h' : heap R) (tr : list (event R Mat)) : Prop :=
  ∃ pv p_view rho_a d ob0 uvwf_v err b sol ob h2 tr_mask,
    floats h !! val p = Some pv ∧
    runs (Mat := Mat) (view p) h p_view h [] ∧
    floats h !! rho = Some rho_a ∧
    runs (Mat := Mat) (load3 dxyz) h d h [] ∧
    floats h !! obst = Some ob0 ∧
    runs (Mat := Mat) (view3 uvwf) h uvwf_v h [] ∧
    let rc := shape pv in
    let dt_rho := np.map_array (fdiv dt) rho_a in
    (* assemble *)
    let A_p := (create_matrix p_view (np.zeros rc) dt_rho d ob0 "n").1 in
    let b_p := vol_balance uvwf_v d (np.zeros rc) in
    np.max (np.abs b_p) = Ret err ∧
    np.ravel b_p (np.prod rc) = Ret b ∧
    (* solve *)
    let res := bicgstab A_p b TOL in
    np.reshape res.1 rc = Ret sol ∧
    (* anchor, then mask *)
    floats (with_val p (anchor sol) h) !! obst = Some ob ∧
    (if np.any ob
     then ∃ z z', obst_zero_val (pos p) (anchor sol) ob = Ret z ∧
                  np.broadcast_to z rc = Ret z' ∧
                  h2 = with_val p z' h ∧
                  tr_mask = [Call "obst_zero_val" [AStr "p.pos"; ARef (val p); ARef obst]]
     else h2 = with_val p (anchor sol) h ∧ tr_mask = []) ∧
    (* close the boundaries *)
    adj_n_bnds p h2 = (Ret tt, h') ∧
    tr = [Call "create_matrix"
            [AField p; ATmp (np.zeros rc); ATmp dt_rho; ARefs dxyz; ARef obst; AStr "n"];
          Call "vol_balance" [AFields uvwf; ARefs dxyz; ATmp (np.zeros rc)];
          Print "Maximum volume error before correction: " err;
          Print "Volume imbalance before correction    : " (np.sum b_p);
          Call "bicgstab" [AMat A_p; AVec b; AScalar TOL];
          PrintInfo "res[1] = " res.2]
         ++ tr_mask ++ [Call "adj_n_bnds" [AField p]].

End calc_p_performs.

(** The names of the functions called in a run, in order. *)
Definition calls {R Mat} (tr : list (event R Mat)) : list string :=
  omap (λ e, match e with Call f _ => Some f | _ => None end) tr.

(** The lines printed in a run, in order. *)
Definition printed {R Mat} (tr : list (event R Mat)) : list (event R Mat) :=
  List.filter (λ e, match e with Call _ _ => false | _ => true end) tr.

(** The calls of one function in a run, in order. *)
Definition calls_of {R Mat} (f : string) (tr : list (event R Mat)) : list (event R Mat) :=
  List.filter (λ e, match e with Call g _ => String.eqb g f | _ => false end) tr.

(** The time steps announced in a run, in order. *)
Definition steps_printed {R Mat} (tr : list (event R Mat)) : list nat :=
  omap (λ e, match e with PrintTimeStep ts => Some ts | _ => None end) tr.

(** A run of a time loop of [ndt] steps announces the steps 1, 2, ... in
    order up to some step [k]: the last one if it returns, the one that
    raised if it raises. *)
Definition announces_steps {R Mat A} (ndt : nat) (r : run R Mat A) : Prop :=
  ∃ k, k ≤ ndt ∧ steps_printed (trace r) = seq 1 k ∧
       (∀ a, outcome r = Ret a → k = ndt) ∧
       (∀ e, outcome r = Raise e → 0 < k).

(** The number of plots made in a run. *)
Definition plots {R Mat} (tr : list (event R Mat)) : nat :=
  length (calls_of "plot_isolines" tr).

(** The discretization [D] with another right-hand side returned by
    [create_matrix], everything else as in [D]. *)
Definition with_rhs {R Mat} (D : Discretization R Mat)
    (rhs : field_view R → ndarray R → ndarray R → ndarray R * ndarray R * ndarray R →
           ndarray R → string → ndarray R) : Discretization R Mat := {|
  TOL := TOL;
  create_matrix := λ phi inn mu dxyz obst obc,
    ((create_matrix phi inn mu dxyz obst obc).1, rhs phi inn mu dxyz obst obc);
  vol_balance := vol_balance;
  cfl_max := cfl_max;
  calc_t := calc_t;
  calc_uvw := calc_uvw;
  corr_uvw := corr_uvw;
  obst_zero_val := obst_zero_val;
  adj_n_bnds := adj_n_bnds
|}.

(** ** What a time step writes *)

Section step_writes.
Context {R : Type}.

Definition cell_olds (w : @flow R) : list loc :=
  [old (uc w); old (vc w); old (wc w)].

Definition face_olds (w : @flow R) : list loc :=
  [old (uf w); old (vf w); old (wf w)].

(** The [old] array of [a] has the shape of its [val] array, as in an
    unknown that [create_unknown] returned. *)
Definition old_fits (h : heap R) (a : unknown) : Prop :=
  shape <$> floats h !! old a = shape <$> floats h !! val a.

(** The value and boundary-value arrays of the six velocities and of the
    pressure. *)
Definition step_values (w : @flow R) : list loc :=
  footprint3 (uc w, vc w, wc w) ++ footprint3 (uf w, vf w, wf w) ++ footprint (p w).

(** The arrays a time step of the flow solver may write: the [old] arrays
    of the cell-centred velocities, and values and boundary values. *)
Definition step_writes (w : @flow R) : list loc :=
  cell_olds w ++ step_values w.

(** With temperature: its [old] array, its values and boundary values. *)
Definition thermal_step_writes (w : @flow R) (th : heat) : list loc :=
  old (t th) :: footprint (t th) ++ step_writes w.

End step_writes.

(** ** The phases of a time step *)

Section phases.
Context {R Mat : Type} `{Num R} `{!Discretization R Mat} `{!Solver R Mat} `{!Display R}.
Implicit Types (w : @flow R) (th : heat).

(** [a.old[:] = a.val[:]] has led from [h] to [h1]: the array [old] of [a]
    holds the values its array [val] held, broadcast to its shape (the same
    values where the two have one shape), and nothing else has changed. *)
Definition snapshot (a : unknown) (h h1 : heap R) : Prop :=
  ∃ v o v',
    floats h !! val a = Some v ∧
    floats h !! old a = Some o ∧
    np.broadcast_to v (shape o) = Ret v' ∧
    h1 = Heap (<[old a := v']> (floats h)) (kinds h).

(** The checks that end a time step, made in the store [h]: the volume
    balance of the face velocities with the obstacle mask, its largest
    absolute value printed, and the CFL number of the cell-centred velocities,
    printed; [tr_d] is what they record. *)
Definition checked w (h : heap R) (tr_d : list (event R Mat)) : Prop :=
  ∃ uvwf_v d ob e uvw_v,
    runs (Mat := Mat) (view3 (uf w, vf w, wf w)) h uvwf_v h [] ∧
    runs (Mat := Mat) (load3 (dx w, dy w, dz w)) h d h [] ∧
    floats h !! obst w = Some ob ∧
    np.max (np.abs (vol_balance uvwf_v d ob)) = Ret e ∧
    runs (Mat := Mat) (view3 (uc w, vc w, wc w)) h uvw_v h [] ∧
    tr_d = [Call "vol_balance"
              [AFields (uf w, vf w, wf w); ARefs (dx w, dy w, dz w); ARef (obst w)];
            Print "Maximum volume error after correction: " e;
            Call "cfl_max"
              [AFields (uc w, vc w, wc w); AScalar (dt w); ARefs (dx w, dy w, dz w)];
            Print "Maximum CFL number: " (cfl_max uvw_v (dt w) d)].

(** The phases of a time step with temperature, each starting in the store
    the one before it left.  First the old values are stored, of the
    temperature and of the three cell-centred velocities, which leads to
    [h1]; then [calc_t], given the product of density and capacity, leads to
    [h2]; [calc_uvw], given the temperature that [calc_t] left, to [h3]; the
    pressure step to [h4]; the corrections of the cell-centred and of the
    face velocities to [h5] and [h']; the checks read [h'] and leave it. *)
Definition thermal_phases w th (p_tot : ndarray R)
    (ef : ndarray R → ndarray R * ndarray R * ndarray R)
    (h h' : heap R) (tr tr_v : list (event R Mat)) : Prop :=
  ∃ ha hb hc h1 h2 h3 h4 h5 rho_a cap_a rho_cap t_val tr_p tr_d,
    snapshot (t th) h ha ∧
    snapshot (uc w) ha hb ∧
    snapshot (vc w) hb hc ∧
    snapshot (wc w) hc h1 ∧
    floats h1 !! rho w = Some rho_a ∧
    floats h1 !! cap th = Some cap_a ∧
    np.binop fmul rho_a cap_a = Ret rho_cap ∧
    calc_t (t th) (uf w, vf w, wf w) rho_cap (kappa th) (dt w) (dx w, dy w, dz w)
      (obst w) h1 = (Ret tt, h2) ∧
    floats h2 !! val (t th) = Some t_val ∧
    calc_uvw (uc w, vc w, wc w) (uf w, vf w, wf w) (rho w) (mu w) p_tot (ef t_val)
      (dt w) (dx w, dy w, dz w) (obst w) h2 = (Ret tt, h3) ∧
    calc_p_performs (p w) (uf w, vf w, wf w) (rho w) (dt w) (dx w, dy w, dz w) (obst w)
      h3 h4 tr_p ∧
    corr_uvw (uc w, vc w, wc w) (p w) (rho w) (dt w) (dx w, dy w, dz w) (obst w) h4
      = (Ret tt, h5) ∧
    corr_uvw (uf w, vf w, wf w) (p w) (rho w) (dt w) (dx w, dy w, dz w) (obst w) h5
      = (Ret tt, h') ∧
    checked w h' tr_d ∧
    calls tr = ["calc_t"; "calc_uvw"; "calc_p"] ++ calls tr_p
               ++ ["corr_uvw"; "corr_uvw"; "vol_balance"; "cfl_max"] ++ calls tr_v.


End phases.
(** * Concrete inputs

    To run the model the parameters need values.  The stand-ins below are
    not the functions of the repository: they are the simplest ones of the
    right type ("the system is x = b"), and serve only to evaluate the model
    on explicit stores. *)

Module Standin.
Section standin.
Context {R : Type} `{Num R}.

(** The imbalance of a fluid cell is the entry of the first face velocity
    with the cell's index in the buffer (zero past its end), that of a solid
    cell is zero. *)
Definition first_velocity (uvwf : field_view R * field_view R * field_view R)
    (dxyz : ndarray R * ndarray R * ndarray R) (mask : ndarray R) : ndarray R :=
  NdArray (shape mask)
    (imap (λ i m, if ftruth m then fzero
                  else default fzero (data (v_val uvwf.1.1) !! i)) (data mask)).

Definition idle (h : heap R) : res unit * heap R := (Ret tt, h).

#[export] Instance discretization : Discretization R unit := {|
  TOL := fzero;
  create_matrix := λ _ inn _ _ _ _, (tt, inn);
  vol_balance := first_velocity;
  cfl_max := λ _ dt _, dt;
  calc_t := λ _ _ _ _ _ _ _, idle;
  calc_uvw := λ _ _ _ _ _ _ _ _ _, idle;
  corr_uvw := λ _ _ _ _ _ _, idle;
  obst_zero_val := λ _, obst_zero_val_spec;
  adj_n_bnds := λ f, as_step (Mat := unit) (adj_n_bnds_spec f)
|}.

(** A solver that returns the right-hand side and reports convergence, and
    one that returns the same iterate and reports three iterations without
    convergence. *)
Definition converged : Solver R unit := {| bicgstab := λ _ b _, (b, 0%Z) |}.
Definition stalled : Solver R unit := {| bicgstab := λ _ b _, (b, 3%Z) |}.

(** One that stops at the initial guess, zero, and reports convergence all
    the same. *)
Definition rough : Solver R unit :=
  {| bicgstab := λ _ b _, (replicate (length b) fzero, 0%Z) |}.

(** One that hands back a vector that is one entry short. *)
Definition short : Solver R unit := {| bicgstab := λ _ b _, (drop 1 b, 0%Z) |}.

#[export] Instance display : Display R := {| plot_isolines := λ _ _ _ _, Ret tt |}.

End standin.
End Standin.

(** A program state as the drivers build it: the property arrays, the eight
    unknowns of [create_unknown], the obstacle mask and the grid spacings. *)
Section setting.
Context {R : Type} `{Num R}.

Definition setting (res : nat * nat * nat) (mask : list R) (step : R)
    : M R unit (flow * heat) :=
  let '(nx, ny, nz) := res in
  let one := fnat 1 in
  rho <- alloc (np.full res one) ;;
  mu <- alloc (np.full res one) ;;
  kappa <- alloc (np.full res one) ;;
  cap <- alloc (np.full res one) ;;
  uc <- create_unknown "cell-u-vel" Position.C res DIRICHLET ;;
  vc <- create_unknown "cell-v-vel" Position.C res DIRICHLET ;;
  wc <- create_unknown "cell-w-vel" Position.C res DIRICHLET ;;
  uf <- create_unknown "face-u-vel" Position.X (nx - 1, ny, nz) DIRICHLET ;;
  vf <- create_unknown "face-v-vel" Position.Y (nx, ny - 1, nz) DIRICHLET ;;
  wf <- create_unknown "face-w-vel" Position.Z (nx, ny, nz - 1) DIRICHLET ;;
  t <- create_unknown "temperature" Position.C res NEUMANN ;;
  p <- create_unknown "pressure" Position.C res NEUMANN ;;
  obst <- alloc (NdArray res mask) ;;
  dx <- alloc (np.full res one) ;;
  dy <- alloc (np.full res one) ;;
  dz <- alloc (np.full res one) ;;
  ret (Flow res uc vc wc uf vf wf p rho mu obst dx dy dz [] [] [] step,
       Heat t kappa cap).

Definition empty_heap : heap R := Heap ∅ ∅.

Definition result_or {A} (d : A) (r : run R unit A) : A :=
  match outcome r with Ret a => a | Raise _ => d end.

End setting.

(** A 3 x 3 x 3 grid in binary64 with one solid cell, at the centre, and
    face velocities that are not all zero. *)
Definition centre_mask : list float :=
  replicate 13 0%float ++ [1%float] ++ replicate 13 0%float.

Definition set_val {R} (f : unknown) (xs : list R) (h : heap R) : heap R :=
  Heap (alter (λ a, NdArray (shape a) xs) (val f) (floats h)) (kinds h).

Definition cube_run := setting (R := float) (3, 3, 3) centre_mask 0x1p-7%float empty_heap.

Definition no_unknown : unknown :=
  Unknown "" Position.C 1%positive 1%positive (λ _, Bnd.Make 1%positive 1%positive).

Definition no_setting : @flow float * heat :=
  (Flow (0, 0, 0) no_unknown no_unknown no_unknown no_unknown no_unknown no_unknown
     no_unknown 1%positive 1%positive 1%positive 1%positive 1%positive 1%positive
     [] [] [] 0%float,
   Heat no_unknown 1%positive 1%positive).

Definition cube_flow : flow := Eval vm_compute in (result_or no_setting cube_run).1.
Definition cube_heat : heat := Eval vm_compute in (result_or no_setting cube_run).2.
Definition cube_heap : heap float := Eval vm_compute in final cube_run.

(** The same grid with no solid cell, the velocities at rest. *)
Definition open_heap : heap float :=
  Eval vm_compute in
    final (setting (R := float) (3, 3, 3) (replicate 27 0%float) 0x1p-7%float empty_heap).

(** The cube with the face velocity [u] set to 1, 2, ..., 18. *)
Definition cube_moving : heap float :=
  Eval vm_compute in
    set_val (uf cube_flow) ((λ n, f64_nat (S n)) <$> seq 0 18) cube_heap.

(** And with the cell-centred velocity [u] set to 1, 2, ..., 27. *)
Definition cube_stirred : heap float :=
  Eval vm_compute in
    set_val (uc cube_flow) ((λ n, f64_nat (S n)) <$> seq 0 27) cube_moving.

(** The pressure step on the cube, with a given solver. *)
Definition cube_calc_p (s : Solver float unit) (h : heap float) : run float unit unit :=
  calc_p (Discretization0 := Standin.discretization) (Solver0 := s)
    (p cube_flow) (uf cube_flow, vf cube_flow, wf cube_flow) (rho cube_flow)
    (dt cube_flow) (dx cube_flow, dy cube_flow, dz cube_flow) (obst cube_flow) h.

(** What the pressure step reads in [open_heap]. *)
Definition no_view : field_view float :=
  FieldView Position.C (np.zeros (0, 0, 0)) (np.zeros (0, 0, 0))
    (λ _, (NdArray (0, 0, 0) [], np.zeros (0, 0, 0))).

Definition open_p_view : field_view float :=
  Eval vm_compute in result_or no_view (view (Mat := unit) (p cube_flow) open_heap).

Definition open_uvwf_view : field_view float * field_view float * field_view float :=
  Eval vm_compute in
    result_or (no_view, no_view, no_view)
      (view3 (Mat := unit) (uf cube_flow, vf cube_flow, wf cube_flow) open_heap).

(** What the pressure step reads in [cube_moving], and what the solvers
    that return the right-hand side return there. *)
Definition cube_p_view : field_view float :=
  Eval vm_compute in result_or no_view (view (Mat := unit) (p cube_flow) cube_moving).

Definition cube_uvwf_view : field_view float * field_view float * field_view float :=
  Eval vm_compute in
    result_or (no_view, no_view, no_view)
      (view3 (Mat := unit) (uf cube_flow, vf cube_flow, wf cube_flow) cube_moving).

Definition cube_iterate : ndarray float :=
  Eval vm_compute in
    NdArray (3, 3, 3) (((λ n, f64_nat (S n)) <$> seq 0 18) ++ replicate 9 0%float).

(** The cube with a mask of another shape, a single flagged cell. *)
Definition cube_bent : heap float :=
  Eval vm_compute in
    Heap (<[obst cube_flow := NdArray (1, 1, 1) [1%float]]> (floats cube_moving))
         (kinds cube_moving).

(** A grid with no cell: 0 x 3 x 3. *)
Definition void_heap : heap float :=
  Eval vm_compute in
    final (setting (R := float) (0, 3, 3) [] 0x1p-7%float empty_heap).

Definition void_p_view : field_view float :=
  Eval vm_compute in result_or no_view (view (Mat := unit) (p cube_flow) void_heap).

Definition void_uvwf_view : field_view float * field_view float * field_view float :=
  Eval vm_compute in
    result_or (no_view, no_view, no_view)
      (view3 (Mat := unit) (uf cube_flow, vf cube_flow, wf cube_flow) void_heap).





(** * Properties *)

(** ** Running statements *)

Section running.
Context {R Mat : Type}.
Implicit Types (h : heap R) (tr : list (event R Mat)).

Lemma runs_outcome {A} (m : M R Mat A) h a :
  outcome (m h) = Ret a → runs m h a (final (m h)) (trace (m h)).
Proof. unfold runs. destruct (m h) as [o f t]; simpl. by intros ->. Qed.

Lemma runs_ret {A} (a b : A) h h' tr :
  runs (ret a) h b h' tr ↔ b = a ∧ h' = h ∧ tr = [].
Proof. unfold runs, ret. split; [intros [= -> -> ->] | intros (-> & -> & ->)]; done. Qed.

Lemma runs_bind {A B} (m : M R Mat A) (k : A → M R Mat B) h b h2 tr :
  runs (bind m k) h b h2 tr ↔
  ∃ a h1 t1 t2, runs m h a h1 t1 ∧ runs (k a) h1 b h2 t2 ∧ tr = t1 ++ t2.
Proof.
  unfold runs, bind. split.
  - destruct (m h) as [[a|e] h1 t1]; simpl; [|done].
    destruct (k a h1) as [o h1' t2] eqn:Hk; simpl. intros [= -> -> <-].
    by exists a, h1, t1, t2.
  - intros (a & h1 & t1 & t2 & -> & Hk & ->); simpl. by rewrite Hk.
Qed.

Lemma runs_lift {A} (r : res A) h a h' tr :
  runs (lift r) h a h' tr ↔ r = Ret a ∧ h' = h ∧ tr = [].
Proof.
  unfold runs. destruct r as [b|e]; simpl; unfold ret, raise.
  - split; [intros [= -> -> ->] | intros ([= ->] & -> & ->)]; done.
  - split; [done | by intros (? & _)].
Qed.

Lemma runs_emit e h u h' tr :
  runs (emit e) h u h' tr ↔ h' = h ∧ tr = [e].
Proof. unfold runs, emit. destruct u. split; [intros [= -> ->] | intros (-> & ->)]; done. Qed.

Lemma runs_load l h a h' tr :
  runs (load l) h a h' tr ↔ floats h !! l = Some a ∧ h' = h ∧ tr = [].
Proof.
  unfold runs, load. destruct (floats h !! l) as [a0|].
  - split; [intros [= -> -> ->] | intros ([= ->] & -> & ->)]; done.
  - split; [done | by intros (? & _)].
Qed.

Lemma runs_load_kinds l h a h' tr :
  runs (load_kinds l) h a h' tr ↔ kinds h !! l = Some a ∧ h' = h ∧ tr = [].
Proof.
  unfold runs, load_kinds. destruct (kinds h !! l) as [a0|].
  - split; [intros [= -> -> ->] | intros ([= ->] & -> & ->)]; done.
  - split; [done | by intros (? & _)].
Qed.

Lemma runs_store l a h u h' tr :
  runs (store l a) h u h' tr ↔
  (∃ a0 a', floats h !! l = Some a0 ∧ np.broadcast_to a (shape a0) = Ret a' ∧
            h' = Heap (<[l := a']> (floats h)) (kinds h)) ∧
  tr = [].
Proof.
  unfold runs, store. destruct u. destruct (floats h !! l) as [a0|].
  - destruct (np.broadcast_to a (shape a0)) as [a'|e] eqn:Hb.
    + split; [intros [= <- <-]; eauto 6 |].
      intros ((? & ? & [= <-] & Hb' & ->) & ->). rewrite Hb in Hb'. by injection Hb' as <-.
    + split; [done | intros ((? & ? & [= <-] & Hb' & _) & _); congruence].
  - split; [done | intros ((? & ? & ? & _) & _); done].
Qed.

(** An array of the shape of the object is written as it is. *)
Lemma broadcast_to_same {A} (a : ndarray A) rc :
  shape a = rc → np.broadcast_to a rc = Ret a.
Proof.
  intros <-. unfold np.broadcast_to. destruct (shape a) as [[ax ay] az].
  by rewrite decide_True.
Qed.

Lemma broadcast_to_shape {A} (a a' : ndarray A) rc :
  np.broadcast_to a rc = Ret a' → shape a' = rc.
Proof.
  unfold np.broadcast_to. destruct (shape a) as [[ax ay] az] eqn:Hs.
  destruct rc as [[nx ny] nz].
  case_decide; [intros [= <-]; by rewrite Hs|].
  case_decide; [by intros [= <-] | done].
Qed.

Lemma runs_store_same l a a0 h :
  floats h !! l = Some a0 → shape a = shape a0 →
  runs (Mat := Mat) (store l a) h tt (Heap (<[l := a]> (floats h)) (kinds h)) [].
Proof.
  intros Hl Hs. apply runs_store. split; [|done].
  exists a0, a. by rewrite broadcast_to_same.
Qed.

Lemma runs_extern f args step h u h' tr :
  runs (extern f args step) h u h' tr ↔
  step h = (Ret u, h') ∧ tr = [Call f args].
Proof.
  unfold runs, extern. destruct (step h) as [r h1].
  split; [intros [= -> -> <-] | intros ([= -> ->] & ->)]; done.
Qed.

Lemma runs_if {A} (c : bool) (m1 m2 : M R Mat A) h a h' tr :
  runs (if c then m1 else m2) h a h' tr ↔
  (c = true ∧ runs m1 h a h' tr) ∨ (c = false ∧ runs m2 h a h' tr).
Proof.
  destruct c; split.
  - by left.
  - by intros [[_ ?]|[? _]].
  - by right.
  - by intros [[? _]|[_ ?]].
Qed.

End running.

(** Taking a successful run apart, statement by statement. *)
Ltac run_inv :=
  repeat match goal with
  | H : runs (bind _ _) _ _ _ _ |- _ =>
      apply runs_bind in H; destruct H as (? & ? & ? & ? & ? & H & ->)
  | H : runs (ret _) _ _ _ _ |- _ => apply runs_ret in H; destruct H as (-> & -> & ->)
  | H : runs (lift _) _ _ _ _ |- _ => apply runs_lift in H; destruct H as (H & -> & ->)
  | H : runs (emit _) _ _ _ _ |- _ => apply runs_emit in H; destruct H as (-> & ->)
  | H : runs (load _) _ _ _ _ |- _ => apply runs_load in H; destruct H as (H & -> & ->)
  | H : runs (load_kinds _) _ _ _ _ |- _ =>
      apply runs_load_kinds in H; destruct H as (H & -> & ->)
  | H : runs (store _ _) _ _ _ _ |- _ =>
      apply runs_store in H; destruct H as (H & ->)
  | H : runs (extern _ _ _) _ _ _ _ |- _ =>
      apply runs_extern in H; destruct H as (H & ->)
  | H : runs (let '(_, _) := ?x in _) _ _ _ _ |- _ => destruct x eqn:?
  end.

(** The same for one statement at a time. *)
Tactic Notation "run_step" hyp(H) "as" simple_intropattern(a) ident(Ha) :=
  apply runs_bind in H as (a & ? & ? & ? & Ha & H & ->).

Tactic Notation "run_step" hyp(H) "as" simple_intropattern(a) ident(Ha)
    "at" ident(h1) ident(t1) :=
  apply runs_bind in H as (a & h1 & t1 & ? & Ha & H & ->).

Ltac run_prim :=
  repeat match goal with
  | H : runs (ret _) _ _ _ _ |- _ => apply runs_ret in H; destruct H as (-> & -> & ->)
  | H : runs (lift _) _ _ _ _ |- _ => apply runs_lift in H; destruct H as (H & -> & ->)
  | H : runs (emit _) _ _ _ _ |- _ => apply runs_emit in H; destruct H as (-> & ->)
  | H : runs (load _) _ _ _ _ |- _ => apply runs_load in H; destruct H as (H & -> & ->)
  | H : runs (load_kinds _) _ _ _ _ |- _ =>
      apply runs_load_kinds in H; destruct H as (H & -> & ->)
  | H : runs (store _ _) _ _ _ _ |- _ =>
      apply runs_store in H; destruct H as (H & ->)
  | H : runs (extern _ _ _) _ _ _ _ |- _ =>
      apply runs_extern in H; destruct H as (H & ->)
  end.

(** ** What a statement leaves untouched *)

Section frames.
Context {R Mat : Type}.
Implicit Types (h : heap R) (ls : list loc).

Lemma same_outside_refl ls h : same_outside ls h h.
Proof. by repeat split. Qed.

Lemma same_outside_trans ls h1 h2 h3 :
  same_outside ls h1 h2 → same_outside ls h2 h3 → same_outside ls h1 h3.
Proof.
  intros (Hk1 & Hd1 & Hf1) (Hk2 & Hd2 & Hf2). repeat split; [congruence..|].
  intros l Hl. rewrite Hf2, Hf1; done.
Qed.

Lemma same_outside_mono ls ls' h h' :
  ls ⊆ ls' → same_outside ls h h' → same_outside ls' h h'.
Proof.
  intros Hsub (Hk & Hd & Hf). repeat split; [done..|].
  intros l Hl. apply Hf. intros Hin. apply Hl, Hsub, Hin.
Qed.

(** Whatever its outcome, [m] changes the store within [ls] only. *)
Definition modifies {A} ls (m : M R Mat A) : Prop :=
  ∀ h, same_outside ls h (final (m h)).

Lemma modifies_mono {A} ls ls' (m : M R Mat A) :
  ls ⊆ ls' → modifies ls m → modifies ls' m.
Proof. intros Hsub Hm h. eapply same_outside_mono; [done | apply Hm]. Qed.

Lemma modifies_ret {A} ls (a : A) : modifies ls (ret (R := R) (Mat := Mat) a).
Proof. intros h. apply same_outside_refl. Qed.

Lemma modifies_lift {A} ls (r : res A) : modifies ls (lift (R := R) (Mat := Mat) r).
Proof. intros h. destruct r; apply same_outside_refl. Qed.

Lemma modifies_emit ls (e : event R Mat) : modifies ls (emit e).
Proof. intros h. apply same_outside_refl. Qed.

Lemma modifies_load ls l : modifies ls (load (Mat := Mat) l).
Proof. intros h. unfold load. destruct (floats h !! l); apply same_outside_refl. Qed.

Lemma modifies_load_kinds ls l : modifies ls (load_kinds (R := R) (Mat := Mat) l).
Proof. intros h. unfold load_kinds. destruct (kinds h !! l); apply same_outside_refl. Qed.

Lemma modifies_bind {A B} ls (m : M R Mat A) (k : A → M R Mat B) :
  modifies ls m → (∀ a, modifies ls (k a)) → modifies ls (bind m k).
Proof.
  intros Hm Hk h. unfold bind. specialize (Hm h).
  destruct (m h) as [[a|e] h1 t1]; simpl in *; [|done].
  eapply same_outside_trans; [done | apply Hk].
Qed.

Lemma modifies_store ls l (a : ndarray R) :
  l ∈ ls → modifies ls (store (Mat := Mat) l a).
Proof.
  intros Hl h. unfold store. destruct (floats h !! l) as [a0|] eqn:Hl0.
  - destruct (np.broadcast_to a (shape a0)) as [a'|e]; [|apply same_outside_refl].
    unfold same_outside; simpl. split; [done|split].
    + rewrite dom_insert_L. apply elem_of_dom_2 in Hl0. set_solver.
    + intros l' Hl'. apply lookup_insert_ne. by intros ->.
  - apply same_outside_refl.
Qed.

Lemma modifies_extern ls f args step :
  writes_within ls step → modifies ls (extern (Mat := Mat) f args step).
Proof.
  intros Hw h. unfold extern. specialize (Hw h).
  by destruct (step h) as [r h1].
Qed.

Lemma modifies_if {A} ls (c : bool) (m1 m2 : M R Mat A) :
  modifies ls m1 → modifies ls m2 → modifies ls (if c then m1 else m2).
Proof. by destruct c. Qed.

Lemma modifies_view_bnd ls b : modifies ls (view_bnd (R := R) (Mat := Mat) b).
Proof.
  unfold view_bnd.
  apply modifies_bind; [apply modifies_load_kinds | intros ty].
  apply modifies_bind; [apply modifies_load | intros v].
  apply modifies_ret.
Qed.

Lemma modifies_view ls f : modifies ls (view (R := R) (Mat := Mat) f).
Proof.
  unfold view.
  do 2 (apply modifies_bind; [apply modifies_load | intros ?]).
  do 6 (apply modifies_bind; [apply modifies_view_bnd | intros ?]).
  apply modifies_ret.
Qed.

Lemma modifies_view3 ls uvw : modifies ls (view3 (R := R) (Mat := Mat) uvw).
Proof.
  destruct uvw as [[u v] w]. unfold view3.
  do 3 (apply modifies_bind; [apply modifies_view | intros ?]).
  apply modifies_ret.
Qed.

Lemma modifies_load3 ls dxyz : modifies ls (load3 (R := R) (Mat := Mat) dxyz).
Proof.
  destruct dxyz as [[dx dy] dz]. unfold load3.
  do 3 (apply modifies_bind; [apply modifies_load | intros ?]).
  apply modifies_ret.
Qed.

(** [m] changes the store within [ls] only, and may end with [step]. *)
Definition modifies_then {A} ls (step : heap R → res unit * heap R) (m : M R Mat A)
    : Prop :=
  ∀ h, ∃ h2, same_outside ls h h2 ∧ (final (m h) = h2 ∨ final (m h) = (step h2).2).

Lemma modifies_then_bind {A B} ls step (m : M R Mat A) (k : A → M R Mat B) :
  modifies ls m → (∀ a, modifies_then ls step (k a)) →
  modifies_then ls step (bind m k).
Proof.
  intros Hm Hk h. unfold bind. specialize (Hm h).
  destruct (m h) as [[a|e] h1 t1]; simpl in *.
  - destruct (Hk a h1) as (h2 & Hs & Hf). exists h2. split; [|done].
    by eapply same_outside_trans.
  - exists h1. by split; [|left].
Qed.

Lemma modifies_then_extern ls f args step :
  modifies_then ls step (extern (Mat := Mat) f args step).
Proof.
  intros h. exists h. split; [apply same_outside_refl|right].
  unfold extern. by destruct (step h).
Qed.

End frames.

(** Statement by statement: every statement stays within [ls].  [tac] is
    tried first on each statement. *)
Ltac frame_using tac :=
  repeat first
    [ tac
    | apply modifies_ret | apply modifies_lift | apply modifies_emit
    | apply modifies_load | apply modifies_load_kinds
    | apply modifies_view | apply modifies_view3 | apply modifies_load3
    | match goal with
      | |- modifies _ (bind _ _) => apply modifies_bind; [|intros ?]
      | |- modifies _ (if ?c then _ else _) => destruct c
      | |- modifies _ (let '(_, _) := ?x in _) => destruct x
      end ].

Ltac frame := frame_using fail.

(** Membership and inclusion among the lists of arrays of a step. *)
Ltac lists :=
  unfold thermal_step_writes, step_writes, step_values, cell_olds, face_olds,
    footprint3, footprint in *;
  cbn [fst snd] in *;
  try (let x := fresh "x" in let Hx := fresh "Hx" in intros x Hx);
  repeat rewrite ?elem_of_app, ?elem_of_cons, ?elem_of_nil in *;
  first [ tauto | solve [intuition (auto 20; try congruence)] ].

(** ** The zero-mean anchor *)

Section anchor_exact.
Local Open Scope Qc_scope.












End anchor_exact.






(** ** Arrays *)

Section array_facts.
Context {R : Type} `{Num R}.

Lemma index_in_buffer i j k nx ny nz :
  i < nx → j < ny → k < nz → (i * ny + j) * nz + k < nx * ny * nz.
Proof.
  intros Hi Hj Hk.
  assert (H1 : i * ny + j + 1 ≤ nx * ny) by nia.
  assert (H2 : (i * ny + j + 1) * nz ≤ nx * ny * nz) by (by apply Nat.mul_le_mono_r).
  lia.
Qed.

Lemma item_Some {A} (a : ndarray A) i j k x :
  np.item a (i, j, k) = Some x →
  ∃ nx ny nz, shape a = (nx, ny, nz) ∧ i < nx ∧ j < ny ∧ k < nz ∧
              data a !! ((i * ny + j) * nz + k) = Some x.
Proof.
  unfold np.item. destruct (shape a) as [[nx ny] nz].
  case_decide as Hb; [|done]. intros Hx. exists nx, ny, nz. naive_solver.
Qed.

Lemma reshape_wf (v : list R) rc a : np.reshape v rc = Ret a → np.wf a ∧ shape a = rc.
Proof. unfold np.reshape. case_decide; [|done]. by intros [= <-]. Qed.

Lemma zip_array_shape {A B C} (f : A → B → C) a b c :
  np.zip_array f a b = Ret c → shape c = shape a.
Proof. unfold np.zip_array. case_decide; [|done]. by intros [= <-]. Qed.

Lemma map_array_wf {A B} (f : A → B) (a : ndarray A) : np.wf a → np.wf (np.map_array f a).
Proof. unfold np.wf, np.map_array; simpl. by rewrite length_fmap. Qed.

Lemma any_false (a : ndarray R) i m :
  np.any a = false → data a !! i = Some m → ftruth m = false.
Proof.
  unfold np.any. intros Hany Hi.
  destruct (ftruth m) eqn:Hm; [|done].
  assert (existsb ftruth (data a) = true); [|congruence].
  apply existsb_exists. exists m. split; [|done].
  apply list_elem_of_In, list_elem_of_lookup. eauto.
Qed.

(** The specified masking puts zero in every cell the mask flags and keeps
    the others. *)
Lemma obst_zero_val_spec_item (v o z : ndarray R) ijk m :
  np.wf v → obst_zero_val_spec v o = Ret z →
  np.item o ijk = Some m →
  np.item z ijk = if ftruth m then Some fzero else np.item v ijk.
Proof.
  unfold obst_zero_val_spec, np.zip_array. intros Hwf Hz Hm.
  case_decide as Hs; [|done]. injection Hz as <-.
  destruct ijk as [[i j] k].
  apply item_Some in Hm as (nx & ny & nz & Hso & Hi & Hj & Hk & Hm).
  unfold np.item; simpl. rewrite Hs, Hso.
  rewrite decide_True by done.
  rewrite lookup_zip_with, Hm.
  assert (Hlt : (i * ny + j) * nz + k < length (data v)).
  { rewrite Hwf, Hs, Hso. by apply index_in_buffer. }
  apply lookup_lt_is_Some in Hlt as [x ->]. simpl.
  rewrite decide_True by done. by destruct (ftruth m).
Qed.

(** *** Sums

    What 0 has and the addition keeps, the sum of a buffer has when its
    elements have it. *)
Section sums_closed.
Variable P : R → Prop.
Hypothesis P_zero : P fzero.
Hypothesis P_add : ∀ x y, P x → P y → P (fadd x y).

Lemma foldl_closed acc xs : P acc → Forall P xs → P (foldl fadd acc xs).
Proof.
  revert acc. induction xs as [|x xs IH]; intros acc Hacc Hxs; simpl; [done|].
  apply Forall_cons_1 in Hxs as [Hx Hxs]. by apply IH; [apply P_add|].
Qed.

Lemma unrolled_closed n xs r0 r1 r2 r3 r4 r5 r6 r7 :
  length xs ≤ n →
  P r0 → P r1 → P r2 → P r3 → P r4 → P r5 → P r6 → P r7 → Forall P xs →
  P (np.unrolled r0 r1 r2 r3 r4 r5 r6 r7 xs).
Proof.
  revert xs r0 r1 r2 r3 r4 r5 r6 r7.
  induction n as [|n IH]; intros xs r0 r1 r2 r3 r4 r5 r6 r7 Hn H0 H1 H2 H3 H4 H5 H6 H7 Hxs;
    destruct xs as [|x0 [|x1 [|x2 [|x3 [|x4 [|x5 [|x6 [|x7 rest]]]]]]]];
    cbn [np.unrolled];
    try (apply foldl_closed; [auto 10 | done]);
    simpl in Hn; [lia|].
  repeat match goal with H : Forall P (_ :: _) |- _ => apply Forall_cons_1 in H as [? H] end.
  apply IH; auto; lia.
Qed.

Lemma block_closed xs : Forall P xs → P (np.block xs).
Proof.
  intros Hxs. unfold np.block.
  destruct xs as [|x0 [|x1 [|x2 [|x3 [|x4 [|x5 [|x6 [|x7 rest]]]]]]]];
    try (by apply foldl_closed).
  repeat match goal with H : Forall P (_ :: _) |- _ => apply Forall_cons_1 in H as [? H] end.
  by eapply unrolled_closed.
Qed.

Lemma pairwise_closed fuel xs : Forall P xs → P (np.pairwise fuel xs).
Proof.
  revert xs. induction fuel as [|fuel IH]; intros xs Hxs; simpl.
  - by apply block_closed.
  - case_decide; [by apply block_closed|].
    apply P_add; apply IH; [by apply Forall_take | by apply Forall_drop].
Qed.

Lemma sum_closed (a : ndarray R) : Forall P (data a) → P (np.sum a).
Proof. intros Ha. unfold np.sum. apply P_add; [done|]. by apply pairwise_closed. Qed.

End sums_closed.

Lemma sum_zeros rc : fadd fzero fzero = fzero → np.sum (np.zeros rc) = fzero.
Proof.
  intros Hz. apply (sum_closed (λ x, x = fzero)); [done | by intros x y -> -> |].
  apply Forall_replicate. done.
Qed.

End array_facts.

(** ** Reading does not write *)

Section views_facts.
Context {R Mat : Type}.
Implicit Types (h : heap R) (f : unknown).

Lemma runs_view_bnd (b : Bnd.t) h tv h' (tr : list (event R Mat)) :
  runs (view_bnd b) h tv h' tr ↔
  kinds h !! Bnd.typ b = Some tv.1 ∧ floats h !! Bnd.val b = Some tv.2 ∧
  h' = h ∧ tr = [].
Proof.
  unfold view_bnd. split.
  - intros Hr. run_inv. done.
  - destruct tv as [t v]. intros (Ht & Hv & -> & ->).
    apply runs_bind. exists t, h, [], []. split; [by apply runs_load_kinds|].
    split; [|done]. apply runs_bind. exists v, h, [], [].
    split; [by apply runs_load|]. split; [|done]. by apply runs_ret.
Qed.

Lemma runs_view f h v h' (tr : list (event R Mat)) :
  runs (view f) h v h' tr →
  h' = h ∧ tr = [] ∧ v_pos v = pos f ∧
  floats h !! val f = Some (v_val v) ∧ floats h !! old f = Some (v_old v) ∧
  ∀ d, kinds h !! Bnd.typ (bnd f d) = Some (v_bnd v d).1 ∧
       floats h !! Bnd.val (bnd f d) = Some (v_bnd v d).2.
Proof.
  unfold view. intros Hr. run_inv.
  repeat match goal with
  | H : runs (view_bnd _) _ _ _ _ |- _ =>
      apply runs_view_bnd in H; destruct H as (? & ? & -> & ->)
  end.
  simpl. repeat split; try done; by destruct d.
Qed.

Lemma runs_view3 uvw h v h' (tr : list (event R Mat)) :
  runs (view3 uvw) h v h' tr → h' = h ∧ tr = [].
Proof.
  destruct uvw as [[u1 u2] u3]. unfold view3. intros Hr. run_inv.
  repeat match goal with
  | H : runs (view _) _ _ _ _ |- _ => apply runs_view in H; destruct H as (-> & -> & _)
  end.
  done.
Qed.

Lemma runs_load3 dxyz h (d : ndarray R * ndarray R * ndarray R) h' (tr : list (event R Mat)) :
  runs (load3 dxyz) h d h' tr →
  h' = h ∧ tr = [] ∧
  floats h !! dxyz.1.1 = Some d.1.1 ∧ floats h !! dxyz.1.2 = Some d.1.2 ∧
  floats h !! dxyz.2 = Some d.2.
Proof.
  destruct dxyz as [[dx dy] dz]. unfold load3. intros Hr. run_inv. done.
Qed.

(** A statement is a function of the store it starts in. *)
Lemma runs_functional {A} (m : M R Mat A) h a1 h1 t1 a2 h2 t2 :
  runs m h a1 h1 t1 → runs m h a2 h2 t2 → a1 = a2 ∧ h1 = h2 ∧ t1 = t2.
Proof. unfold runs. intros -> [= -> -> ->]. done. Qed.

End views_facts.

Ltac run_inv_reads :=
  repeat match goal with
  | H : runs (view3 _) _ _ _ _ |- _ =>
      let H' := fresh in pose proof (runs_view3 _ _ _ _ _ H) as H';
      destruct H' as (-> & ->)
  | H : runs (load3 _) _ _ _ _ |- _ =>
      let H' := fresh in pose proof (runs_load3 _ _ _ _ _ H) as H';
      destruct H' as (-> & -> & _)
  | H : runs (view _) _ _ _ _ |- _ =>
      let H' := fresh in pose proof (runs_view _ _ _ _ _ H) as H';
      destruct H' as (-> & -> & _)
  end.


(** ** [calc_p] *)

Section calc_p_facts.
Context {R Mat : Type} `{Num R} `{!Discretization R Mat} `{!Solver R Mat}.
Implicit Types (h : heap R) (p : unknown).

(** A call of [calc_p] that returns has gone through its phases. *)
Lemma calc_p_runs p uvwf rho dt dxyz obst h h' tr :
  runs (calc_p p uvwf rho dt dxyz obst) h tt h' tr →
  calc_p_performs p uvwf rho dt dxyz obst h h' tr.
Proof.
  intros Hrun. unfold calc_p in Hrun. unfold calc_p_performs.
  run_step Hrun as pv Hpv.
  run_step Hrun as p_view Hview.
  run_step Hrun as rho_a Hrho.
  run_step Hrun as d Hd.
  run_step Hrun as ob0 Hob0.
  run_step Hrun as ? Hcall.
  destruct (create_matrix _ _ _ _ _ _) as [A_p b0] eqn:Hcm.
  run_step Hrun as uvwf_v Huv.
  run_step Hrun as d' Hd'.
  run_step Hrun as ? Hcall2.
  run_step Hrun as err Herr.
  run_step Hrun as ? Hpr1.
  run_step Hrun as ? Hpr2.
  run_step Hrun as b Hb.
  run_step Hrun as ? Hcall3.
  run_step Hrun as sol Hx.
  run_step Hrun as ? Hst1.
  run_step Hrun as ? Hpr3.
  run_step Hrun as pv1 Hpv1.
  run_step Hrun as ? Hst2.
  run_step Hrun as ob Hob.
  run_step Hrun as ? Hif.
  run_prim. run_inv_reads. simpl in *.
  destruct (runs_functional _ _ _ _ _ _ _ _ Hd Hd') as (<- & _).
  pose proof (reshape_wf _ _ _ Hx) as [_ Hrc].
  destruct Hst1 as (pv0 & x' & Hpv0 & Hb1 & ->).
  assert (pv0 = pv) as -> by congruence.
  rewrite (broadcast_to_same _ _ Hrc) in Hb1. injection Hb1 as <-.
  simpl in *. rewrite lookup_insert_eq in Hpv1. injection Hpv1 as <-.
  destruct Hst2 as (a0 & a' & Ha0 & Hb2 & ->).
  rewrite lookup_insert_eq in Ha0. injection Ha0 as <-.
  rewrite broadcast_to_same in Hb2 by done. injection Hb2 as <-.
  simpl in *. rewrite insert_insert_eq in Hob, Hif.
  exists pv, p_view, rho_a, d, ob0, uvwf_v, err, b, sol, ob.
  rewrite Hcm. simpl.
  destruct (np.any ob) eqn:Hany.
  - run_step Hif as pv2 Hpv2.
    run_step Hif as ob' Hob'.
    run_step Hif as ? Hcall4.
    run_step Hif as z Hz.
    run_prim. simpl in *.
    rewrite lookup_insert_eq in Hpv2. injection Hpv2 as <-.
    assert (ob' = ob) as -> by congruence.
    destruct Hif as (a0 & z' & Hl & Hbz & ->). rewrite lookup_insert_eq in Hl.
    injection Hl as <-. simpl in Hbz, Hrun. rewrite insert_insert_eq in Hrun.
    rewrite Hrc in Hbz.
    exists (with_val p z' h),
      [Call "obst_zero_val" [AStr "p.pos"; ARef (val p); ARef obst]].
    repeat split; try done.
    by exists z, z'.
  - run_prim. exists (with_val p (anchor sol) h), [].
    repeat split; done.
Qed.


Lemma runs_bind_intro {A B} (m : M R Mat A) (k : A → M R Mat B) h a h1 t1 b h2 t2 tr :
  tr = t1 ++ t2 → runs m h a h1 t1 → runs (k a) h1 b h2 t2 → runs (bind m k) h b h2 tr.
Proof. intros -> Hm Hk. apply runs_bind. by exists a, h1, t1, t2. Qed.

(** Conversely, a store and parameters with which the phases go through
    make the call return. *)
Lemma calc_p_returns p uvwf rho dt dxyz obst h h' tr :
  calc_p_performs p uvwf rho dt dxyz obst h h' tr →
  runs (calc_p p uvwf rho dt dxyz obst) h tt h' tr.
Proof.
  intros (pv & p_view & rho_a & d & ob0 & uvwf_v & err & b & sol & ob & h2 & tr_mask &
          Hpv & Hview & Hrho & Hd & Hob0 & Huv & Herr & Hb & Hsol & Hob & Hmask &
          Hadj & ->).
  unfold calc_p.
  eapply runs_bind_intro with (t1 := []); [done | by apply runs_load |].
  eapply runs_bind_intro with (t1 := []); [done | done |].
  eapply runs_bind_intro with (t1 := []); [done | by apply runs_load |].
  eapply runs_bind_intro with (t1 := []); [done | done |].
  eapply runs_bind_intro with (t1 := []); [done | by apply runs_load |].
  eapply runs_bind_intro; [| by apply runs_emit |]; [reflexivity|].
  destruct (create_matrix _ _ _ _ _ _) as [A_p b0]; simpl in *.
  eapply runs_bind_intro with (t1 := []); [done | done |].
  eapply runs_bind_intro with (t1 := []); [done | done |].
  eapply runs_bind_intro; [| by apply runs_emit |]; [reflexivity|].
  eapply runs_bind_intro with (t1 := []); [done | by apply runs_lift |].
  eapply runs_bind_intro; [| by apply runs_emit |]; [reflexivity|].
  eapply runs_bind_intro; [| by apply runs_emit |]; [reflexivity|].
  eapply runs_bind_intro with (t1 := []); [done | by apply runs_lift |].
  eapply runs_bind_intro; [| by apply runs_emit |]; [reflexivity|].
  eapply runs_bind_intro with (t1 := []); [done | by apply runs_lift |].
  pose proof (reshape_wf _ _ _ Hsol) as [_ Hrc].
  eapply runs_bind_intro with (t1 := []); [done | by eapply runs_store_same |].
  eapply runs_bind_intro; [| by apply runs_emit |]; [reflexivity|].
  eapply runs_bind_intro with (t1 := []);
    [done | apply runs_load; split; [apply lookup_insert_eq | done] |].
  eapply runs_bind_intro with (t1 := []); [done | |].
  { eapply runs_store_same; [apply lookup_insert_eq | done]. }
  simpl. rewrite insert_insert_eq.
  eapply runs_bind_intro with (t1 := []); [done | by apply runs_load |].
  eapply runs_bind_intro with (t1 := tr_mask); [done | |].
  - destruct (np.any ob).
    + destruct Hmask as (z & z' & Hz & Hbz & -> & ->).
      eapply runs_bind_intro with (t1 := []);
        [done | apply runs_load; split; [apply lookup_insert_eq | done] |].
      eapply runs_bind_intro with (t1 := []); [done | by apply runs_load |].
      eapply runs_bind_intro; [| by apply runs_emit |]; [reflexivity|].
      eapply runs_bind_intro with (t1 := []); [done | by apply runs_lift |].
      apply runs_store. split; [|done].
      exists (anchor sol), z'. split_and!; [apply lookup_insert_eq | |].
      * simpl. by rewrite Hrc.
      * unfold with_val; simpl. by rewrite insert_insert_eq.
    + destruct Hmask as (-> & ->). by apply runs_ret.
  - by apply runs_extern.
  Unshelve. all: exact tt.
Qed.

End calc_p_facts.

Section calc_p_properties.
Context {R Mat : Type} `{Num R} `{!Discretization R Mat} `{!Solver R Mat}.
Implicit Types (h : heap R) (p : unknown).

(** Under the contract of [adj_n_bnds], [calc_p] stays within the value
    array and the boundary values of [p], whether it returns or raises. *)
Lemma calc_p_modifies p uvwf rho dt dxyz obst :
  adj_n_bnds_writes_boundaries →
  modifies (footprint p) (calc_p p uvwf rho dt dxyz obst).
Proof.
  intros Hadj. unfold calc_p.
  assert (Hst : ∀ a : ndarray R, modifies (footprint p) (store (Mat := Mat) (val p) a)).
  { intros a. apply modifies_store. unfold footprint. set_solver. }
  repeat first [ apply Hst | progress frame ].
  apply modifies_extern. intros h0.
  eapply same_outside_mono; [|apply Hadj]. unfold footprint. set_solver.
Qed.

(** What [calc_p] writes itself is the value array of [p]; its last
    statement hands the store to [adj_n_bnds]. *)
Lemma calc_p_modifies_then p uvwf rho dt dxyz obst :
  modifies_then [val p] (adj_n_bnds p) (calc_p p uvwf rho dt dxyz obst).
Proof.
  unfold calc_p.
  assert (Hst : ∀ a : ndarray R, modifies [val p] (store (Mat := Mat) (val p) a)).
  { intros a. apply modifies_store. set_solver. }
  repeat first
    [ apply modifies_then_extern
    | match goal with
      | |- modifies_then _ _ (bind _ _) =>
          apply modifies_then_bind;
          [ solve [repeat first [apply Hst | progress frame]] | intros ? ]
      | |- modifies_then _ _ (let '(_, _) := ?x in _) => destruct x
      end ].
Qed.

(** C8: [calc_p] returns no value (its result type is the unit type).
    Whether it returns or raises, the only array it writes itself is the
    value array of the pressure field; every other change to the store is
    made by [adj_n_bnds], called last on that field.  Where [adj_n_bnds]
    writes boundary values of its field only, the call leaves every array
    other than the value array and the boundary-value arrays of the pressure
    field as it was, changes no boundary kind and creates or drops no array:
    the face velocities, the density, the grid spacings and the obstacle
    mask, being other arrays, are unchanged. *)
Theorem calc_p_frame p uvwf rho dt dxyz obst h :
  let r := calc_p p uvwf rho dt dxyz obst h in
  (∃ h2, same_outside [val p] h h2 ∧
         (final r = h2 ∨ final r = (adj_n_bnds p h2).2)) ∧
  (adj_n_bnds_writes_boundaries →
   kinds (final r) = kinds h ∧
   dom (floats (final r)) = dom (floats h) ∧
   (∀ l, l ∉ footprint p → floats (final r) !! l = floats h !! l) ∧
   (∀ f, f ∈ [uvwf.1.1; uvwf.1.2; uvwf.2] →
      ∀ l, l ∈ val f :: old f :: bnd_vals f → l ∉ footprint p →
        floats (final r) !! l = floats h !! l) ∧
   (∀ l, l ∈ [rho; dxyz.1.1; dxyz.1.2; dxyz.2; obst] → l ∉ footprint p →
      floats (final r) !! l = floats h !! l)).
Proof.
  intros r. split; [apply calc_p_modifies_then|].
  intros Hadj.
  destruct (calc_p_modifies p uvwf rho dt dxyz obst Hadj h) as (Hk & Hd & Hf).
  fold r in Hk, Hd, Hf. repeat split; auto.
Qed.

(** C1: after a call of [calc_p] that returns, every cell that the obstacle
    mask flags (nonzero) holds exactly zero in [p.val], whatever the solver
    returned.  [obst_zero_val] and [adj_n_bnds] are as the spec describes
    them; the mask and the boundary slabs are other arrays than [p.val]. *)
Theorem calc_p_zero_in_obstacle p uvwf rho dt dxyz obst h h' tr ob :
  obst_zero_val_as_specified →
  adj_n_bnds_writes_boundaries →
  val p ∉ bnd_vals p →
  obst ≠ val p →
  floats h !! obst = Some ob →
  runs (calc_p p uvwf rho dt dxyz obst) h tt h' tr →
  ∃ pv, floats h' !! val p = Some pv ∧
    ∀ ijk m, np.item ob ijk = Some m → ftruth m = true → np.item pv ijk = Some fzero.
Proof.
  intros Hzero Hadj Hp Hobst Hob Hrun.
  apply calc_p_runs in Hrun
    as (pv & p_view & rho_a & d & ob0 & uvwf_v & err & b & sol & ob' & h2 & tr_mask &
        Hpv & Hview & Hrho & Hd & Hob0 & Huv & Herr & Hb & Hsol & Hob' & Hmask &
        Hclose & ->).
  simpl in Hob'. rewrite lookup_insert_ne in Hob' by done.
  assert (ob' = ob) as -> by congruence.
  destruct (Hadj p h2) as (_ & _ & Hkeep). rewrite Hclose in Hkeep. simpl in Hkeep.
  specialize (Hkeep (val p) Hp).
  destruct (np.any ob) eqn:Hany.
  - destruct Hmask as (z & z' & Hz & Hbz & -> & _).
    rewrite Hzero in Hz.
    pose proof (zip_array_shape _ _ _ _ Hz) as Hsz. simpl in Hsz.
    rewrite <- (proj2 (reshape_wf _ _ _ Hsol)), broadcast_to_same in Hbz by done.
    injection Hbz as <-.
    exists z. split.
    + rewrite Hkeep. apply lookup_insert_eq.
    + intros ijk m Hm Ht.
      rewrite (obst_zero_val_spec_item _ _ _ _ _
                 (map_array_wf _ _ (proj1 (reshape_wf _ _ _ Hsol))) Hz Hm).
      by rewrite Ht.
  - destruct Hmask as (-> & _).
    exists (anchor sol). split.
    + rewrite Hkeep. apply lookup_insert_eq.
    + intros [[i j] k] m Hm Ht.
      apply item_Some in Hm as (nx & ny & nz & _ & _ & _ & _ & Hm).
      rewrite (any_false _ _ _ Hany Hm) in Ht. done.
Qed.

(** C4: a call of [calc_p] that returns has gone through four phases, in
    this order: (1) the operator is assembled by [create_matrix] with a zero
    source, the coefficient [dt/rho] and the flag ['n'], and the source is
    what [vol_balance] gives for the face velocities; (2) [bicgstab] solves;
    (3) the mean of the solution is subtracted; (4) if the mask flags a cell,
    [obst_zero_val] is applied to the anchored field and its result assigned
    to [p.val], and then [adj_n_bnds] closes the boundaries of the field so
    obtained.  The functions are called
    in that order, each on what the one before left, and the store the call
    leaves is the one [adj_n_bnds] leaves: nothing else outlives the call.
    Where [obst_zero_val] is as the spec describes it, the cells the mask
    flags are zero and the others keep the anchored value; where [adj_n_bnds]
    writes boundary values only, the call has changed nothing but the arrays
    of [p]. *)
Theorem calc_p_four_phases p uvwf rho dt dxyz obst h h' tr ob :
  obst ≠ val p →
  floats h !! obst = Some ob →
  runs (calc_p p uvwf rho dt dxyz obst) h tt h' tr →
  ∃ p_view rho_a d uvwf_v b sol masked,
    runs (Mat := Mat) (view p) h p_view h [] ∧
    floats h !! rho = Some rho_a ∧
    runs (Mat := Mat) (load3 dxyz) h d h [] ∧
    runs (Mat := Mat) (view3 uvwf) h uvwf_v h [] ∧
    let rc := shape (v_val p_view) in
    (* 1: assemble *)
    let A_p := (create_matrix p_view (np.zeros rc) (np.map_array (fdiv dt) rho_a)
                  d ob "n").1 in
    np.ravel (vol_balance uvwf_v d (np.zeros rc)) (np.prod rc) = Ret b ∧
    (* 2: solve *)
    np.reshape (bicgstab A_p b TOL).1 rc = Ret sol ∧
    (* 3: anchor; 4: mask ... *)
    (if np.any ob
     then ∃ z, obst_zero_val (pos p) (np.map_array (λ v, fsub v (np.mean sol)) sol) ob
               = Ret z ∧
               np.broadcast_to z rc = Ret masked
     else masked = np.map_array (λ v, fsub v (np.mean sol)) sol) ∧
    shape masked = rc ∧
    (obst_zero_val_as_specified →
     ∀ ijk m, np.item ob ijk = Some m →
       np.item masked ijk =
         if ftruth m then Some fzero
         else np.item (np.map_array (λ v, fsub v (np.mean sol)) sol) ijk) ∧
    (* ... and close the boundaries *)
    adj_n_bnds p (with_val p masked h) = (Ret tt, h') ∧
    calls tr = ["create_matrix"; "vol_balance"; "bicgstab"]
               ++ (if np.any ob then ["obst_zero_val"] else [])
               ++ ["adj_n_bnds"] ∧
    (adj_n_bnds_writes_boundaries → same_outside (footprint p) h h').
Proof.
  intros Hobst Hob Hrun.
  assert (Hsame : adj_n_bnds_writes_boundaries → same_outside (footprint p) h h').
  { intros Hadj.
    pose proof (calc_p_modifies p uvwf rho dt dxyz obst Hadj h) as Hm.
    unfold runs in Hrun. by rewrite Hrun in Hm. }
  apply calc_p_runs in Hrun
    as (pv & p_view & rho_a & d & ob0 & uvwf_v & err & b & sol & ob' & h2 & tr_mask &
        Hpv & Hview & Hrho & Hd & Hob0 & Huv & Herr & Hb & Hsol & Hob' & Hmask &
        Hclose & ->).
  simpl in Hob'. rewrite lookup_insert_ne in Hob' by done.
  assert (ob' = ob) as -> by congruence. assert (ob0 = ob) as -> by congruence.
  destruct (runs_view _ _ _ _ _ Hview) as (_ & _ & _ & Hpv' & _).
  assert (pv = v_val p_view) as -> by congruence.
  pose proof (reshape_wf _ _ _ Hsol) as [Hwf Hrc].
  destruct (np.any ob) eqn:Hany.
  - destruct Hmask as (z & z' & Hz & Hbz & -> & ->).
    exists p_view, rho_a, d, uvwf_v, b, sol, z'.
    cbv zeta. split_and!; try done.
    + by exists z.
    + by apply broadcast_to_shape in Hbz.
    + intros Hzero ijk m Hm. rewrite Hzero in Hz.
      pose proof (zip_array_shape _ _ _ _ Hz) as Hsz. simpl in Hsz.
      rewrite <- Hrc, broadcast_to_same in Hbz by done. injection Hbz as <-.
      apply (obst_zero_val_spec_item _ _ _ _ _ (map_array_wf _ _ Hwf) Hz Hm).
  - destruct Hmask as (-> & ->).
    exists p_view, rho_a, d, uvwf_v, b, sol, (anchor sol).
    cbv zeta. split_and!; try done.
    intros _ [[i j] k] m Hm.
    pose proof Hm as Hm'.
    apply item_Some in Hm' as (nx & ny & nz & _ & _ & _ & _ & Hm').
    by rewrite (any_false _ _ _ Hany Hm').
Qed.

(** C7: with a mask that flags no cell and a divergence source that is zero
    in every cell, [calc_p] returns and leaves [p.val] zero in every cell,
    and the solver reports convergence ([info] 0).  The scalar arithmetic
    satisfies 0 + 0 = 0, 0 - 0 = 0 and 0 / N = 0 for the number N of cells,
    as binary64 does; [bicgstab] returns the zero vector and [info] 0 for a
    zero right-hand side, as scipy's does; the objects passed exist and the
    grid has a cell. *)
Theorem calc_p_zero_source p uvwf rho dt dxyz obst h pv p_view rho_a d ob uvwf_v :
  fadd fzero fzero = fzero →
  fsub fzero fzero = fzero →
  fdiv fzero (fnat (np.prod (shape pv))) = fzero →
  (∀ A n tol, bicgstab A (replicate n fzero) tol = (replicate n fzero, 0%Z)) →
  adj_n_bnds_writes_boundaries →
  (adj_n_bnds p (with_val p (np.zeros (shape pv)) h)).1 = Ret tt →
  val p ∉ bnd_vals p →
  obst ≠ val p →
  floats h !! val p = Some pv →
  np.prod (shape pv) ≠ 0 →
  runs (Mat := Mat) (view p) h p_view h [] →
  floats h !! rho = Some rho_a →
  runs (Mat := Mat) (load3 dxyz) h d h [] →
  runs (Mat := Mat) (view3 uvwf) h uvwf_v h [] →
  floats h !! obst = Some ob →
  np.any ob = false →
  vol_balance uvwf_v d (np.zeros (shape pv)) = np.zeros (shape pv) →
  ∃ h' tr,
    runs (calc_p p uvwf rho dt dxyz obst) h tt h' tr ∧
    floats h' !! val p = Some (np.zeros (shape pv)) ∧
    PrintInfo "res[1] = " 0 ∈ tr.
Proof.
  intros Hadd Hsub Hdiv Hsolve Hadj Hret Hp Hobst Hpv Hn Hview Hrho Hd Huv Hob Hany Hsrc.
  set (rc := shape pv) in *. set (n := np.prod rc) in *.
  assert (Hanchor : anchor (np.zeros rc) = np.zeros rc).
  { unfold anchor, np.map_array, np.mean. rewrite sum_zeros by done.
    unfold np.zeros; simpl. fold n. rewrite length_replicate, Hdiv.
    f_equal. rewrite fmap_replicate. by rewrite Hsub. }
  destruct (adj_n_bnds p (with_val p (np.zeros rc) h)) as [r h'] eqn:Hclose.
  simpl in Hret. subst r.
  destruct (np.max (np.abs (np.zeros rc))) as [err|e] eqn:Herr.
  2:{ unfold np.max, np.abs, np.map_array, np.zeros in Herr; simpl in Herr.
      fold n in Herr. destruct n; [done|]. simpl in Herr. done. }
  eexists h', _. split; [|split].
  - apply calc_p_returns.
    exists pv, p_view, rho_a, d, ob, uvwf_v, err, (replicate n fzero), (np.zeros rc), ob,
      (with_val p (np.zeros rc) h), [].
    cbv zeta. fold rc. rewrite Hsrc, Hsolve, Hanchor, Hany. simpl.
    repeat split; try done.
    + unfold np.ravel, np.zeros; simpl. fold n.
      by rewrite decide_True by apply length_replicate.
    + unfold np.reshape. fold n. by rewrite decide_True by apply length_replicate.
    + by rewrite lookup_insert_ne.
  - destruct (Hadj p (with_val p (np.zeros rc) h)) as (_ & _ & Hkeep).
    rewrite Hclose in Hkeep. simpl in Hkeep. rewrite (Hkeep _ Hp).
    apply lookup_insert_eq.
  - simpl. set_solver.
Qed.

End calc_p_properties.

(** ** [calc_p] and what the solver reports *)

Section effects.
Context {R Mat : Type}.

(** Two statements that end the same way in the same store, whatever they
    print. *)
Definition same_effect {A} (m1 m2 : M R Mat A) : Prop :=
  ∀ h, outcome (m1 h) = outcome (m2 h) ∧ final (m1 h) = final (m2 h).

Lemma same_effect_refl {A} (m : M R Mat A) : same_effect m m.
Proof. by intros h. Qed.

Lemma same_effect_bind {A B} (m : M R Mat A) (k1 k2 : A → M R Mat B) :
  (∀ a, same_effect (k1 a) (k2 a)) → same_effect (bind m k1) (bind m k2).
Proof.
  intros Hk h. unfold bind. destruct (m h) as [[a|e] h1 t1]; simpl; [|done].
  apply Hk.
Qed.

Lemma same_effect_emit {B} (e1 e2 : event R Mat) (k1 k2 : unit → M R Mat B) :
  (∀ u, same_effect (k1 u) (k2 u)) →
  same_effect (bind (emit e1) k1) (bind (emit e2) k2).
Proof. intros Hk h. unfold bind, emit; simpl. apply Hk. Qed.

Lemma bind_ext {A B} (m : M R Mat A) (k1 k2 : A → M R Mat B) h :
  (∀ a h1, k1 a h1 = k2 a h1) → bind m k1 h = bind m k2 h.
Proof.
  intros Hk. unfold bind. destruct (m h) as [[a|e] h1 t1]; simpl; [|done].
  by rewrite Hk.
Qed.

End effects.

Section calc_p_solver.
Context {R Mat : Type} `{Num R} (D : Discretization R Mat).

(** A call that returns has written the iterate of the solver, anchored
    and masked, and has printed the flag. *)
Lemma calc_p_writes_iterate (s : Solver R Mat) p uvwf rho dt dxyz obst h h' tr :
  runs (calc_p (Solver0 := s) p uvwf rho dt dxyz obst) h tt h' tr →
  ∃ err imb A b pv sol ob masked,
    calls_of "bicgstab" tr = [Call "bicgstab" [AMat A; AVec b; AScalar TOL]] ∧
    printed tr =
      [Print "Maximum volume error before correction: " err;
       Print "Volume imbalance before correction    : " imb;
       PrintInfo "res[1] = " (bicgstab (Solver := s) A b TOL).2] ∧
    floats h !! val p = Some pv ∧
    np.reshape (bicgstab (Solver := s) A b TOL).1 (shape pv) = Ret sol ∧
    floats (with_val p (anchor sol) h) !! obst = Some ob ∧
    (if np.any ob
     then ∃ z, obst_zero_val (pos p) (anchor sol) ob = Ret z ∧
               np.broadcast_to z (shape pv) = Ret masked
     else masked = anchor sol) ∧
    adj_n_bnds p (with_val p masked h) = (Ret tt, h') ∧
    (adj_n_bnds_writes_boundaries → val p ∉ bnd_vals p →
     floats h' !! val p = Some masked).
Proof.
  intros Hret. apply calc_p_runs in Hret
    as (pv & p_view & rho_a & d & ob0 & uvwf_v & err & b & sol & ob' & h2 & tr_mask &
        Hpv & _ & _ & _ & _ & _ & _ & _ & Hsol & Hob' & Hmask & Hclose & ->).
  assert (Hkeep : ∀ masked, adj_n_bnds p (with_val p masked h) = (Ret tt, h') →
            adj_n_bnds_writes_boundaries → val p ∉ bnd_vals p →
            floats h' !! val p = Some masked).
  { intros masked Hc Hadj Hp. destruct (Hadj p (with_val p masked h)) as (_ & _ & Hk).
    rewrite Hc in Hk. cbn [snd] in Hk. rewrite (Hk _ Hp). apply lookup_insert_eq. }
  destruct (np.any ob') eqn:Hany.
  - destruct Hmask as (z & z' & Hz & Hbz & -> & ->).
    eexists err, _, _, b, pv, sol, ob', z'. rewrite Hany.
    split; [reflexivity|]. split; [reflexivity|]. split; [exact Hpv|].
    split; [exact Hsol|]. split; [exact Hob'|]. split; [by exists z|].
    split; [exact Hclose | by apply Hkeep].
  - destruct Hmask as (-> & ->).
    eexists err, _, _, b, pv, sol, ob', (anchor sol). rewrite Hany.
    split; [reflexivity|]. split; [reflexivity|]. split; [exact Hpv|].
    split; [exact Hsol|]. split; [exact Hob'|]. split; [reflexivity|].
    split; [exact Hclose | by apply Hkeep].
Qed.

(** C3, as it holds: the solver's flag changes neither how [calc_p] ends nor
    the store it leaves.  For two solvers that return the same iterate,
    whatever their [info], the call ends the same way (so it does not raise
    because the solver did not converge) in the same store.  A call that
    returns has called the solver once, has written the solver's iterate to
    [p.val] whatever the flag was, then anchored it and, where the mask flags
    a cell, masked it, and has handed the store with this field to
    [adj_n_bnds], whose store is the final one: where [adj_n_bnds] writes
    boundary values only, [p.val] holds the anchored and masked iterate at
    the end.  It has printed three lines: the two volume diagnostics from
    before the solve and the flag [res[1]].  Nothing else of the solve is
    printed, and [calc_p] returns no value. *)
Theorem calc_p_solver_flag (s1 s2 : Solver R Mat) p uvwf rho dt dxyz obst h :
  (∀ A b tol, (bicgstab (Solver := s1) A b tol).1 = (bicgstab (Solver := s2) A b tol).1) →
  let r1 := calc_p (Solver0 := s1) p uvwf rho dt dxyz obst h in
  let r2 := calc_p (Solver0 := s2) p uvwf rho dt dxyz obst h in
  outcome r1 = outcome r2 ∧
  final r1 = final r2 ∧
  (outcome r1 = Ret tt →
   ∃ err imb A b pv sol ob masked,
     calls_of "bicgstab" (trace r1) = [Call "bicgstab" [AMat A; AVec b; AScalar TOL]] ∧
     printed (trace r1) =
       [Print "Maximum volume error before correction: " err;
        Print "Volume imbalance before correction    : " imb;
        PrintInfo "res[1] = " (bicgstab (Solver := s1) A b TOL).2] ∧
     (* the iterate, whatever the flag *)
     floats h !! val p = Some pv ∧
     np.reshape (bicgstab (Solver := s1) A b TOL).1 (shape pv) = Ret sol ∧
     (* written to [p.val] and anchored there, then masked *)
     floats (with_val p (anchor sol) h) !! obst = Some ob ∧
     (if np.any ob
      then ∃ z, obst_zero_val (pos p) (anchor sol) ob = Ret z ∧
                np.broadcast_to z (shape pv) = Ret masked
      else masked = anchor sol) ∧
     (* and closed *)
     adj_n_bnds p (with_val p masked h) = (Ret tt, final r1) ∧
     (adj_n_bnds_writes_boundaries → val p ∉ bnd_vals p →
      floats (final r1) !! val p = Some masked)).
Proof.
  intros Hiter r1 r2.
  assert (Hsame : same_effect (calc_p (Solver0 := s1) p uvwf rho dt dxyz obst)
                              (calc_p (Solver0 := s2) p uvwf rho dt dxyz obst)).
  { unfold calc_p. cbv zeta.
    do 6 (apply same_effect_bind; intros ?).
    destruct (create_matrix _ _ _ _ _ _) as [A_p b0].
    do 8 (apply same_effect_bind; intros ?).
    rewrite Hiter.
    do 2 (apply same_effect_bind; intros ?).
    apply same_effect_emit; intros ?. apply same_effect_refl. }
  destruct (Hsame h) as [Ho Hf]. split; [done|]. split; [done|].
  intros Hret. apply (calc_p_writes_iterate s1 p uvwf rho dt dxyz obst h).
  by apply runs_outcome.
Qed.

(** The right-hand side that [create_matrix] returns is not used: with
    any other one the call is the same. *)
Lemma calc_p_discards_rhs (s : Solver R Mat) rhs p uvwf rho dt dxyz obst h :
  calc_p (Discretization0 := with_rhs D rhs) p uvwf rho dt dxyz obst h =
  calc_p (Discretization0 := D) p uvwf rho dt dxyz obst h.
Proof.
  unfold calc_p. cbv zeta.
  do 6 (apply bind_ext; intros ? ?).
  simpl. by destruct (create_matrix _ _ _ _ _ _) as [A_p b0].
Qed.

End calc_p_solver.

(** ** The time loops *)

Section driver_facts.
Context {R Mat : Type} `{Num R} `{!Discretization R Mat} `{!Solver R Mat} `{!Display R}.
Implicit Types (h : heap R) (w : @flow R) (th : heat).

Lemma runs_store_old (a : unknown) h u h' (tr : list (event R Mat)) :
  runs (store_old a) h u h' tr →
  ∃ v o v', floats h !! val a = Some v ∧ floats h !! old a = Some o ∧
            np.broadcast_to v (shape o) = Ret v' ∧
            h' = Heap (<[old a := v']> (floats h)) (kinds h) ∧ tr = [].
Proof.
  unfold store_old. intros Hr. run_step Hr as v Hv. run_prim.
  destruct Hr as (o & v' & ? & ? & ->). by exists v, o, v'.
Qed.

Lemma runs_diagnostics w h h' (tr : list (event R Mat)) :
  runs (diagnostics w) h tt h' tr →
  h' = h ∧
  ∃ uvwf_v d ob e uvw_v,
    runs (Mat := Mat) (view3 (uf w, vf w, wf w)) h uvwf_v h [] ∧
    runs (Mat := Mat) (load3 (dx w, dy w, dz w)) h d h [] ∧
    floats h !! obst w = Some ob ∧
    np.max (np.abs (vol_balance uvwf_v d ob)) = Ret e ∧
    runs (Mat := Mat) (view3 (uc w, vc w, wc w)) h uvw_v h [] ∧
    tr = [Call "vol_balance"
            [AFields (uf w, vf w, wf w); ARefs (dx w, dy w, dz w); ARef (obst w)];
          Print "Maximum volume error after correction: " e;
          Call "cfl_max"
            [AFields (uc w, vc w, wc w); AScalar (dt w); ARefs (dx w, dy w, dz w)];
          Print "Maximum CFL number: " (cfl_max uvw_v (dt w) d)].
Proof.
  unfold diagnostics. intros Hr.
  run_step Hr as uvwf_v Huv.
  run_step Hr as d Hd.
  run_step Hr as ob Hob.
  run_step Hr as ? Hc1.
  run_step Hr as e He.
  run_step Hr as ? Hp1.
  run_step Hr as uvw_v Hu.
  run_step Hr as d' Hd'.
  run_step Hr as ? Hc2.
  run_prim. run_inv_reads.
  destruct (runs_functional _ _ _ _ _ _ _ _ Hd Hd') as (<- & _).
  split; [done|]. by exists uvwf_v, d, ob, e, uvw_v.
Qed.

Lemma runs_plot w phi h h' (tr : list (event R Mat)) :
  runs (plot w phi) h tt h' tr → h' = h ∧ calls tr = ["plot_isolines"].
Proof.
  unfold plot. intros Hr.
  run_step Hr as a Ha. run_step Hr as v Hv. run_step Hr as ? Hc.
  run_prim. run_inv_reads. done.
Qed.

Lemma runs_pressure_call w h h' (tr : list (event R Mat)) :
  runs (pressure_call w) h tt h' tr →
  ∃ tr_p,
    runs (calc_p (p w) (uf w, vf w, wf w) (rho w) (dt w) (dx w, dy w, dz w) (obst w))
      h tt h' tr_p ∧
    tr = Call "calc_p"
           [AField (p w); AFields (uf w, vf w, wf w); ARef (rho w); AScalar (dt w);
            ARefs (dx w, dy w, dz w); ARef (obst w)] :: tr_p.
Proof.
  unfold pressure_call. intros Hr. run_step Hr as ? Hc. run_prim. eauto.
Qed.

(** *** What the steps write *)

Lemma modifies_store_old ls (a : unknown) :
  old a ∈ ls → modifies ls (store_old (R := R) (Mat := Mat) a).
Proof. intros Hin. unfold store_old. frame. by apply modifies_store. Qed.

Lemma modifies_diagnostics ls w : modifies ls (diagnostics (Mat := Mat) w).
Proof. unfold diagnostics. frame. Qed.

Lemma modifies_plot ls w phi : modifies ls (plot (Mat := Mat) w phi).
Proof. unfold plot. frame. Qed.

Lemma modifies_pressure_call ls w :
  adj_n_bnds_writes_boundaries → footprint (p w) ⊆ ls →
  modifies ls (pressure_call w).
Proof.
  intros Hadj Hsub. unfold pressure_call.
  apply modifies_bind; [apply modifies_emit | intros _].
  eapply modifies_mono; [done | by apply calc_p_modifies].
Qed.

Lemma modifies_correct ls w uvw :
  transport_writes_values → footprint3 uvw ⊆ ls → modifies ls (correct w uvw).
Proof.
  intros (_ & _ & Hcorr) Hsub. unfold correct.
  apply modifies_extern. intros h. eapply same_outside_mono; [done | apply Hcorr].
Qed.

Lemma modifies_momentum ls w p_tot ef :
  transport_writes_values →
  footprint3 (uc w, vc w, wc w) ++ footprint3 (uf w, vf w, wf w) ⊆ ls →
  modifies ls (momentum w p_tot ef).
Proof.
  intros (_ & Huvw & _) Hsub. unfold momentum.
  apply modifies_extern. intros h. eapply same_outside_mono; [done | apply Huvw].
Qed.

Lemma modifies_temperature ls w th :
  transport_writes_values → footprint (t th) ⊆ ls → modifies ls (temperature w th).
Proof.
  intros (Ht & _ & _) Hsub. unfold temperature. frame.
  apply modifies_extern. intros h. eapply same_outside_mono; [done | apply Ht].
Qed.

Lemma modifies_for_range {A} ls (body : nat → A → M R Mat A) first n acc :
  (∀ ts a, modifies ls (body ts a)) → modifies ls (for_range first n body acc).
Proof.
  intros Hbody. revert first acc.
  induction n as [|n IH]; intros first acc; simpl.
  - apply modifies_ret.
  - apply modifies_bind; [apply Hbody | intros acc'; apply IH].
Qed.

(** The part of a step that all three programs share, from the pressure
    step to the diagnostics. *)
Lemma modifies_flow_part w :
  transport_writes_values → adj_n_bnds_writes_boundaries →
  modifies (step_writes w) (pressure_call w) ∧
  modifies (step_writes w) (correct w (uc w, vc w, wc w)) ∧
  modifies (step_writes w) (correct w (uf w, vf w, wf w)) ∧
  (∀ p_tot ef, modifies (step_writes w) (momentum w p_tot ef)) ∧
  (∀ a, a ∈ [uc w; vc w; wc w] → modifies (step_writes w) (store_old (R := R) (Mat := Mat) a)).
Proof.
  intros Htr Hadj. split_and!.
  - apply modifies_pressure_call; [done | lists].
  - apply modifies_correct; [done | lists].
  - apply modifies_correct; [done | lists].
  - intros p_tot ef. apply modifies_momentum; [done | lists].
  - intros a Ha. apply modifies_store_old. lists.
Qed.

Lemma modifies_obstacles_step w ts :
  transport_writes_values → adj_n_bnds_writes_boundaries →
  modifies (step_writes w) (obstacles_step w ts).
Proof.
  intros Htr Hadj.
  destruct (modifies_flow_part w Htr Hadj) as (Hp & Hc1 & Hc2 & Hm & Hold).
  unfold obstacles_step.
  frame_using ltac:(first
    [ apply Hp | apply Hc1 | apply Hc2 | apply Hm | apply Hold; lists
    | apply modifies_diagnostics | apply modifies_plot ]).
Qed.

Lemma modifies_plumes_step w th ts :
  transport_writes_values → adj_n_bnds_writes_boundaries →
  modifies (thermal_step_writes w th) (plumes_step w th ts).
Proof.
  intros Htr Hadj.
  destruct (modifies_flow_part w Htr Hadj) as (Hp & Hc1 & Hc2 & Hm & Hold).
  assert (Hsub : step_writes w ⊆ thermal_step_writes w th)
    by (lists).
  unfold plumes_step.
  frame_using ltac:(first
    [ apply (modifies_mono _ _ _ Hsub); first
        [ apply Hp | apply Hc1 | apply Hc2 | apply Hm | apply Hold; lists ]
    | apply modifies_store_old; lists
    | apply modifies_temperature; [done | lists]
    | apply modifies_diagnostics | apply modifies_plot ]).
Qed.

Lemma modifies_cavity_step w th show_plot ts p_tot :
  transport_writes_values → adj_n_bnds_writes_boundaries →
  modifies (thermal_step_writes w th) (cavity_step w th show_plot ts p_tot).
Proof.
  intros Htr Hadj.
  destruct (modifies_flow_part w Htr Hadj) as (Hp & Hc1 & Hc2 & Hm & Hold).
  assert (Hsub : step_writes w ⊆ thermal_step_writes w th)
    by (lists).
  unfold cavity_step.
  frame_using ltac:(first
    [ apply (modifies_mono _ _ _ Hsub); first
        [ apply Hp | apply Hc1 | apply Hc2 | apply Hm | apply Hold; lists ]
    | apply modifies_store_old; lists
    | apply modifies_temperature; [done | lists]
    | apply modifies_diagnostics | apply modifies_plot ]).
Qed.

End driver_facts.

(** ** The [old] arrays *)

Section old_values.
Context {R Mat : Type} `{Num R} `{!Discretization R Mat} `{!Solver R Mat} `{!Display R}.
Implicit Types (h : heap R) (w : @flow R) (th : heat).

(** A statement that stays within [ls] keeps every array outside [ls]. *)
Lemma modifies_keeps {A} ls (m : M R Mat A) h l :
  modifies ls m → l ∉ ls → floats (final (m h)) !! l = floats h !! l.
Proof. intros Hm Hl. by apply Hm. Qed.

Lemma runs_final {A} (m : M R Mat A) h a h' tr : runs m h a h' tr → final (m h) = h'.
Proof. unfold runs. by intros ->. Qed.

(** [a.old[:] = a.val[:]] on arrays of one shape, followed by statements
    that do not write [a.old]: at the end [a.old] holds what [a.val] held at
    the start. *)
Lemma store_old_kept {A} (a : unknown) (rest : M R Mat A) ls h r h' tr :
  runs (store_old a ;;; rest) h r h' tr →
  modifies ls rest → old a ∉ ls → old_fits h a →
  floats h' !! old a = floats h !! val a.
Proof.
  intros Hr Hrest Hl Hfit. run_step Hr as ? Hs.
  apply runs_store_old in Hs as (v & o & v' & Hv & Ho & Hb & -> & _).
  unfold old_fits in Hfit. rewrite Hv, Ho in Hfit. injection Hfit as Hfit.
  rewrite broadcast_to_same in Hb by done. injection Hb as <-.
  apply runs_final in Hr. rewrite <- Hr, (modifies_keeps _ _ _ _ Hrest Hl).
  simpl. by rewrite lookup_insert_eq.
Qed.

(** A snapshot of another unknown in front changes nothing else. *)
Lemma store_old_skip {A} (b : unknown) (rest : M R Mat A) h r h' tr :
  runs (store_old b ;;; rest) h r h' tr →
  ∃ h1, runs rest h1 r h' tr ∧ ∀ l, l ≠ old b → floats h1 !! l = floats h !! l.
Proof.
  intros Hr. run_step Hr as ? Hs.
  apply runs_store_old in Hs as (v & o & v' & _ & _ & _ & -> & ->).
  eexists. split; [exact Hr|]. intros l Hl. simpl. by rewrite lookup_insert_ne.
Qed.

Lemma old_fits_kept h h1 (a : unknown) :
  floats h1 !! old a = floats h !! old a →
  floats h1 !! val a = floats h !! val a →
  old_fits h a → old_fits h1 a.
Proof. unfold old_fits. by intros -> ->. Qed.

(** What follows the snapshots in a step writes values only. *)
Lemma modifies_flow_values w :
  transport_writes_values → adj_n_bnds_writes_boundaries →
  modifies (step_values w) (pressure_call w) ∧
  modifies (step_values w) (correct w (uc w, vc w, wc w)) ∧
  modifies (step_values w) (correct w (uf w, vf w, wf w)) ∧
  (∀ p_tot ef, modifies (step_values w) (momentum w p_tot ef)).
Proof.
  intros Htr Hadj. split_and!.
  - apply modifies_pressure_call; [done | lists].
  - apply modifies_correct; [done | lists].
  - apply modifies_correct; [done | lists].
  - intros p_tot ef. apply modifies_momentum; [done | lists].
Qed.

End old_values.

(** Every statement after the snapshots stays within the value arrays. *)
Ltac frame_values Hsub Hp Hc1 Hc2 Hm Htr :=
  frame_using ltac:(first
    [ apply (modifies_mono _ _ _ Hsub); first [ apply Hp | apply Hc1 | apply Hc2 | apply Hm ]
    | apply modifies_temperature; [exact Htr | lists]
    | apply modifies_diagnostics | apply modifies_plot ]).

(** The facts [x ∉ l] that [NoDup (x :: l)] stands for. *)
Ltac nodup_facts H :=
  repeat (let Hn := fresh "Hn" in
          pose proof (NoDup_cons_1_1 _ _ H) as Hn; apply NoDup_cons_1_2 in H).

Ltac forall_facts H :=
  repeat (let Hs := fresh "Hs" in
          apply Forall_cons_1 in H as [Hs H]).

Section snapshots.
Context {R Mat : Type} `{Num R} `{!Discretization R Mat} `{!Solver R Mat} `{!Display R}.
Implicit Types (h : heap R) (w : @flow R) (th : heat).

(** Three snapshots, then statements that write values only. *)
Lemma flow_snapshots {A} w (rest : M R Mat A) h r h' tr :
  modifies (step_values w) rest →
  NoDup (cell_olds w) →
  Forall (λ l, l ∉ step_values w) (cell_olds w) →
  Forall (old_fits h) [uc w; vc w; wc w] →
  runs (store_old (uc w) ;;; store_old (vc w) ;;; store_old (wc w) ;;; rest) h r h' tr →
  Forall (λ a, floats h' !! old a = floats h !! val a) [uc w; vc w; wc w].
Proof.
  intros Hrest Hnd Hsep Hfit Hr.
  unfold cell_olds in Hnd, Hsep. nodup_facts Hnd. forall_facts Hsep.
  apply Forall_cons_1 in Hfit as [Hfu Hfit]. apply Forall_cons_1 in Hfit as [Hfv Hfit].
  apply Forall_cons_1 in Hfit as [Hfw _].
  assert (Hw : modifies (old (wc w) :: step_values w)
                 (store_old (wc w) ;;; rest)).
  { apply modifies_bind; [apply modifies_store_old; lists | intros _].
    eapply modifies_mono; [|exact Hrest]. lists. }
  assert (Hv : modifies (old (vc w) :: old (wc w) :: step_values w)
                 (store_old (vc w) ;;; store_old (wc w) ;;; rest)).
  { apply modifies_bind; [apply modifies_store_old; lists | intros _].
    eapply modifies_mono; [|exact Hw]. lists. }
  repeat apply Forall_cons_2; [| | |apply Forall_nil_2].
  - eapply store_old_kept; [exact Hr | exact Hv | lists | done].
  - apply store_old_skip in Hr as (h1 & Hr & Hk).
    rewrite <- (Hk (val (vc w))) by lists.
    eapply store_old_kept; [exact Hr | exact Hw | lists |].
    eapply old_fits_kept; [apply Hk; lists | apply Hk; lists | done].
  - apply store_old_skip in Hr as (h1 & Hr & Hk1).
    apply store_old_skip in Hr as (h2 & Hr & Hk2).
    rewrite <- (Hk1 (val (wc w))), <- (Hk2 (val (wc w))) by lists.
    eapply store_old_kept; [exact Hr | exact Hrest | lists |].
    eapply old_fits_kept; [apply Hk2; lists | apply Hk2; lists |].
    eapply old_fits_kept; [apply Hk1; lists | apply Hk1; lists | done].
Qed.

(** Four snapshots, with the temperature first. *)
Lemma thermal_snapshots {A} w th (rest : M R Mat A) h r h' tr :
  modifies (footprint (t th) ++ step_values w) rest →
  NoDup (old (t th) :: cell_olds w) →
  Forall (λ l, l ∉ footprint (t th) ++ step_values w) (old (t th) :: cell_olds w) →
  Forall (old_fits h) [t th; uc w; vc w; wc w] →
  runs (store_old (t th) ;;; store_old (uc w) ;;; store_old (vc w) ;;;
        store_old (wc w) ;;; rest) h r h' tr →
  Forall (λ a, floats h' !! old a = floats h !! val a) [t th; uc w; vc w; wc w].
Proof.
  intros Hrest Hnd Hsep Hfit Hr.
  unfold cell_olds in Hnd, Hsep. nodup_facts Hnd. forall_facts Hsep.
  apply Forall_cons_1 in Hfit as [Hft Hfit]. apply Forall_cons_1 in Hfit as [Hfu Hfit].
  apply Forall_cons_1 in Hfit as [Hfv Hfit]. apply Forall_cons_1 in Hfit as [Hfw _].
  assert (Hw : modifies (old (wc w) :: footprint (t th) ++ step_values w)
                 (store_old (wc w) ;;; rest)).
  { apply modifies_bind; [apply modifies_store_old; lists | intros _].
    eapply modifies_mono; [|exact Hrest]. lists. }
  assert (Hv : modifies (old (vc w) :: old (wc w) :: footprint (t th) ++ step_values w)
                 (store_old (vc w) ;;; store_old (wc w) ;;; rest)).
  { apply modifies_bind; [apply modifies_store_old; lists | intros _].
    eapply modifies_mono; [|exact Hw]. lists. }
  assert (Hc : modifies (old (uc w) :: old (vc w) :: old (wc w)
                           :: footprint (t th) ++ step_values w)
                 (store_old (uc w) ;;; store_old (vc w) ;;; store_old (wc w) ;;; rest)).
  { apply modifies_bind; [apply modifies_store_old; lists | intros _].
    eapply modifies_mono; [|exact Hv]. lists. }
  repeat apply Forall_cons_2; [| | | |apply Forall_nil_2].
  - eapply store_old_kept; [exact Hr | exact Hc | lists | done].
  - apply store_old_skip in Hr as (h1 & Hr & Hk).
    rewrite <- (Hk (val (uc w))) by lists.
    eapply store_old_kept; [exact Hr | exact Hv | lists |].
    eapply old_fits_kept; [apply Hk; lists | apply Hk; lists | done].
  - apply store_old_skip in Hr as (h1 & Hr & Hk1).
    apply store_old_skip in Hr as (h2 & Hr & Hk2).
    rewrite <- (Hk1 (val (vc w))), <- (Hk2 (val (vc w))) by lists.
    eapply store_old_kept; [exact Hr | exact Hw | lists |].
    eapply old_fits_kept; [apply Hk2; lists | apply Hk2; lists |].
    eapply old_fits_kept; [apply Hk1; lists | apply Hk1; lists | done].
  - apply store_old_skip in Hr as (h1 & Hr & Hk1).
    apply store_old_skip in Hr as (h2 & Hr & Hk2).
    apply store_old_skip in Hr as (h3 & Hr & Hk3).
    rewrite <- (Hk1 (val (wc w))), <- (Hk2 (val (wc w))), <- (Hk3 (val (wc w))) by lists.
    eapply store_old_kept; [exact Hr | exact Hrest | lists |].
    eapply old_fits_kept; [apply Hk3; lists | apply Hk3; lists |].
    eapply old_fits_kept; [apply Hk2; lists | apply Hk2; lists |].
    eapply old_fits_kept; [apply Hk1; lists | apply Hk1; lists | done].
Qed.

End snapshots.

(** ** The order of a time step *)

Section time_step.
Context {R Mat : Type} `{Num R} `{!Discretization R Mat} `{!Solver R Mat} `{!Display R}.
Implicit Types (h : heap R) (w : @flow R) (th : heat).

Lemma calls_app (t1 t2 : list (event R Mat)) : calls (t1 ++ t2) = calls t1 ++ calls t2.
Proof. apply omap_app. Qed.

Lemma runs_temperature w th h h' (tr : list (event R Mat)) :
  runs (temperature w th) h tt h' tr →
  ∃ rho_a cap_a rho_cap,
    floats h !! rho w = Some rho_a ∧ floats h !! cap th = Some cap_a ∧
    np.binop fmul rho_a cap_a = Ret rho_cap ∧
    calc_t (t th) (uf w, vf w, wf w) rho_cap (kappa th) (dt w) (dx w, dy w, dz w)
      (obst w) h = (Ret tt, h') ∧
    calls tr = ["calc_t"].
Proof.
  unfold temperature. intros Hr.
  run_step Hr as rho_a Hrho. run_step Hr as cap_a Hcap. run_step Hr as rho_cap Hrc.
  run_prim. by exists rho_a, cap_a, rho_cap.
Qed.

Lemma runs_momentum w p_tot ef h h' (tr : list (event R Mat)) :
  runs (momentum w p_tot ef) h tt h' tr →
  calc_uvw (uc w, vc w, wc w) (uf w, vf w, wf w) (rho w) (mu w) p_tot.2 ef.2 (dt w)
    (dx w, dy w, dz w) (obst w) h = (Ret tt, h') ∧
  calls tr = ["calc_uvw"].
Proof. unfold momentum. intros Hr. run_prim. done. Qed.

Lemma runs_correct w uvw h h' (tr : list (event R Mat)) :
  runs (correct w uvw) h tt h' tr →
  corr_uvw uvw (p w) (rho w) (dt w) (dx w, dy w, dz w) (obst w) h = (Ret tt, h') ∧
  tr = [Call "corr_uvw"
          [AFields uvw; AField (p w); ARef (rho w); AScalar (dt w);
           ARefs (dx w, dy w, dz w); ARef (obst w)]].
Proof. unfold correct. intros Hr. run_prim. done. Qed.

Lemma runs_snapshot {A} (a : unknown) (rest : M R Mat A) h r h' tr :
  runs (store_old a ;;; rest) h r h' tr →
  ∃ h1, snapshot a h h1 ∧ runs rest h1 r h' tr.
Proof.
  intros Hr. run_step Hr as ? Hs.
  apply runs_store_old in Hs as (v & o & v' & Hv & Ho & Hb & -> & ->).
  eexists. split; [by exists v, o, v' | exact Hr].
Qed.

Lemma runs_checked w h h' (tr : list (event R Mat)) :
  runs (diagnostics w) h tt h' tr → h' = h ∧ checked w h tr.
Proof.
  intros Hr. apply runs_diagnostics in Hr
    as (-> & uvwf_v & d & ob & e & uvw_v & ? & ? & ? & ? & ? & ->).
  split; [done|]. by exists uvwf_v, d, ob, e, uvw_v.
Qed.

Lemma runs_plots_keep (c : bool) (m : M R Mat unit) h h' tr names :
  (∀ h0 h1 t1, runs m h0 tt h1 t1 → h1 = h0 ∧ calls t1 = names) →
  runs (if c then m else ret tt) h tt h' tr →
  h' = h ∧ calls tr = if c then names else [].
Proof.
  intros Hm Hr. destruct c; [by apply Hm|]. by apply runs_ret in Hr as (_ & -> & ->).
Qed.

(** The phases of a step of the plumes program that returns. *)
Lemma plumes_step_phases w th ts h h' tr :
  runs (plumes_step w th ts) h tt h' tr →
  ∃ tr_v,
    thermal_phases w th (np.zeros (rc w))
      (λ t_val, (np.zeros (rc w), np.map_array (fmul (fnat 150)) t_val,
                 np.zeros (rc w))) h h' tr tr_v ∧
    calls tr_v = if decide (ts mod 150 = 0)
                 then ["plot_isolines"; "plot_isolines"] else [].
Proof.
  intros Hr. unfold plumes_step in Hr.
  run_step Hr as ? Hpr. apply runs_emit in Hpr as (-> & ->).
  apply runs_snapshot in Hr as (ha & Hsa & Hr). apply runs_snapshot in Hr as (hb & Hsb & Hr).
  apply runs_snapshot in Hr as (hc & Hsc & Hr). apply runs_snapshot in Hr as (h1 & Hsd & Hr).
  run_step Hr as ? Htemp at h2 t2. run_step Hr as t_val Htv at h2' t2'.
  run_step Hr as ? Hmom at h3 t3. run_step Hr as ? Hpc at h4 t4.
  run_step Hr as ? Hc1 at h5 t5. run_step Hr as ? Hc2 at h6 t6.
  run_step Hr as ? Hdiag at h7 t7.
  repeat match goal with u : unit |- _ => destruct u end.
  apply runs_temperature in Htemp
    as (rho_a & cap_a & rho_cap & Hrho & Hcap & Hrc & Hct & Ht1).
  apply runs_load in Htv as (Htv & -> & ->).
  apply runs_momentum in Hmom as (Hcu & Ht2). simpl in Hcu.
  apply runs_pressure_call in Hpc as (tr_p & Hp & ->).
  apply runs_correct in Hc1 as (Hcc & ->). apply runs_correct in Hc2 as (Hcf & ->).
  pose proof (runs_checked _ _ _ _ Hdiag) as (Heq & Hchk).
  subst h7. apply calc_p_runs in Hp.
  assert (Htd : calls t7 = ["vol_balance"; "cfl_max"]).
  { destruct Hchk as (? & ? & ? & ? & ? & _ & _ & _ & _ & _ & ->). reflexivity. }
  match type of Hr with runs _ _ _ _ ?tv =>
    assert (Hplots : h' = h6 ∧ calls tv = if decide (ts mod 150 = 0)
                             then ["plot_isolines"; "plot_isolines"] else [])
  end.
  { destruct (decide (ts mod 150 = 0)).
    - run_step Hr as ? Hq1 at hq tq.
      repeat match goal with u : unit |- _ => destruct u end.
      apply runs_plot in Hq1 as (-> & Hn1). apply runs_plot in Hr as (-> & Hn2).
      by rewrite calls_app, Hn1, Hn2.
    - by apply runs_ret in Hr as (_ & -> & ->). }
  destruct Hplots as (-> & Hv).
  eexists. split; [|exact Hv].
  exists ha, hb, hc, h1, h2, h3, h4, h5, rho_a, cap_a, rho_cap, t_val, tr_p, t7.
  split_and!; try done.
  rewrite !calls_app, Ht1, Ht2, Htd. reflexivity.
Qed.

(** The phases of a step of the cavity program that returns. *)
Lemma cavity_step_phases w th show_plot ts p_tot h p_tot' h' tr :
  runs (cavity_step w th show_plot ts p_tot) h p_tot' h' tr →
  ∃ tr_v,
    thermal_phases w th p_tot
      (λ t_val, (np.zeros (rc w), t_val, np.zeros (rc w))) h h' tr tr_v ∧
    calls tr_v = if show_plot && bool_decide (ts mod 20 = 0)
                 then ["plot_isolines"] else [].
Proof.
  intros Hr. unfold cavity_step in Hr.
  run_step Hr as ? Hpr. apply runs_emit in Hpr as (-> & ->).
  apply runs_snapshot in Hr as (ha & Hsa & Hr). apply runs_snapshot in Hr as (hb & Hsb & Hr).
  apply runs_snapshot in Hr as (hc & Hsc & Hr). apply runs_snapshot in Hr as (h1 & Hsd & Hr).
  run_step Hr as ? Htemp at h2 t2. run_step Hr as t_val Htv at h2' t2'.
  run_step Hr as ? Hmom at h3 t3. run_step Hr as ? Hpc at h4 t4.
  run_step Hr as p_val Hpv at h4' t4'. run_step Hr as p_sum Hps at h4'' t4''.
  run_step Hr as ? Hc1 at h5 t5. run_step Hr as ? Hc2 at h6 t6.
  run_step Hr as ? Hdiag at h7 t7. run_step Hr as ? Hplot at h8 t8.
  repeat match goal with u : unit |- _ => destruct u end.
  apply runs_temperature in Htemp
    as (rho_a & cap_a & rho_cap & Hrho & Hcap & Hrc & Hct & Ht1).
  apply runs_load in Htv as (Htv & -> & ->).
  apply runs_momentum in Hmom as (Hcu & Ht2). simpl in Hcu.
  apply runs_pressure_call in Hpc as (tr_p & Hp & ->).
  apply runs_load in Hpv as (Hpv & -> & ->).
  apply runs_lift in Hps as (Hps & -> & ->).
  apply runs_correct in Hc1 as (Hcc & ->). apply runs_correct in Hc2 as (Hcf & ->).
  pose proof (runs_checked _ _ _ _ Hdiag) as (Heq & Hchk).
  subst h7. apply calc_p_runs in Hp.
  assert (Htd : calls t7 = ["vol_balance"; "cfl_max"]).
  { destruct Hchk as (? & ? & ? & ? & ? & _ & _ & _ & _ & _ & ->). reflexivity. }
  apply runs_ret in Hr as (-> & -> & ->).
  assert (Hplots : h8 = h6 ∧ calls t8 = if show_plot && bool_decide (ts mod 20 = 0)
                           then ["plot_isolines"] else []).
  { destruct show_plot; simpl.
    - destruct (decide (ts mod 20 = 0)) as [Hd|Hd].
      + rewrite bool_decide_eq_true_2 by done. by apply runs_plot in Hplot.
      + rewrite bool_decide_eq_false_2 by done.
        by apply runs_ret in Hplot as (_ & -> & ->).
    - by apply runs_ret in Hplot as (_ & -> & ->). }
  destruct Hplots as (-> & Hv).
  exists t8. split; [|done].
  exists ha, hb, hc, h1, h2, h3, h4, h5, rho_a, cap_a, rho_cap, t_val, tr_p, t7.
  split_and!; try done.
  rewrite !calls_app, Ht1, Ht2, Htd. simpl. rewrite !app_nil_r. reflexivity.
Qed.

(** C9: a time step of the two thermal programs that returns has run its
    phases one after the other, each on the store the one before it left:
    the old values are stored (the [old] arrays of the temperature and of the
    cell-centred velocities take the values of the [val] arrays, one after
    the other), then the scalar is transported ([calc_t]),
    then momentum ([calc_uvw]), then the pressure correction is assembled and
    solved ([calc_p]), then the cell-centred and then the face velocities are
    corrected ([corr_uvw] twice), then the volume balance and the CFL number
    are computed; the functions are called in this order, and plots, when
    due, come last. *)
Theorem time_step_order w th :
  (∀ ts h h' tr,
     runs (plumes_step w th ts) h tt h' tr →
     ∃ tr_v,
       thermal_phases w th (np.zeros (rc w))
         (λ t_val, (np.zeros (rc w), np.map_array (fmul (fnat 150)) t_val,
                    np.zeros (rc w))) h h' tr tr_v ∧
       calls tr_v = if decide (ts mod 150 = 0)
                    then ["plot_isolines"; "plot_isolines"] else []) ∧
  (∀ show_plot ts p_tot h p_tot' h' tr,
     runs (cavity_step w th show_plot ts p_tot) h p_tot' h' tr →
     ∃ tr_v,
       thermal_phases w th p_tot
         (λ t_val, (np.zeros (rc w), t_val, np.zeros (rc w))) h h' tr tr_v ∧
       calls tr_v = if show_plot && bool_decide (ts mod 20 = 0)
                    then ["plot_isolines"] else []).
Proof.
  split.
  - intros ts h h' tr. apply plumes_step_phases.
  - intros show_plot ts p_tot h p_tot' h' tr. apply cavity_step_phases.
Qed.

End time_step.

Section old_values_of_runs.
Context {R Mat : Type} `{Num R} `{!Discretization R Mat} `{!Solver R Mat} `{!Display R}.
Implicit Types (h : heap R) (w : @flow R) (th : heat).

Lemma obstacles_step_snapshots w ts h h' tr :
  transport_writes_values → adj_n_bnds_writes_boundaries →
  NoDup (cell_olds w) →
  Forall (λ l, l ∉ step_values w) (cell_olds w) →
  Forall (old_fits h) [uc w; vc w; wc w] →
  runs (obstacles_step w ts) h tt h' tr →
  Forall (λ a, floats h' !! old a = floats h !! val a) [uc w; vc w; wc w].
Proof.
  intros Htr Hadj Hnd Hsep Hfit Hr.
  destruct (modifies_flow_values w Htr Hadj) as (Hp & Hc1 & Hc2 & Hm).
  assert (Hsub : step_values w ⊆ step_values w) by done.
  unfold obstacles_step in Hr.
  run_step Hr as ? Hpr. apply runs_emit in Hpr as (-> & _).
  eapply flow_snapshots; [| done | done | done | exact Hr].
  frame_values Hsub Hp Hc1 Hc2 Hm Htr.
Qed.

Lemma plumes_step_snapshots w th ts h h' tr :
  transport_writes_values → adj_n_bnds_writes_boundaries →
  NoDup (old (t th) :: cell_olds w) →
  Forall (λ l, l ∉ footprint (t th) ++ step_values w) (old (t th) :: cell_olds w) →
  Forall (old_fits h) [t th; uc w; vc w; wc w] →
  runs (plumes_step w th ts) h tt h' tr →
  Forall (λ a, floats h' !! old a = floats h !! val a) [t th; uc w; vc w; wc w].
Proof.
  intros Htr Hadj Hnd Hsep Hfit Hr.
  destruct (modifies_flow_values w Htr Hadj) as (Hp & Hc1 & Hc2 & Hm).
  assert (Hsub : step_values w ⊆ footprint (t th) ++ step_values w)
    by (intros x Hx; apply elem_of_app; by right).
  unfold plumes_step in Hr.
  run_step Hr as ? Hpr. apply runs_emit in Hpr as (-> & _).
  eapply thermal_snapshots; [| done | done | done | exact Hr].
  frame_values Hsub Hp Hc1 Hc2 Hm Htr.
Qed.

Lemma cavity_step_snapshots w th show_plot ts p_tot h p_tot' h' tr :
  transport_writes_values → adj_n_bnds_writes_boundaries →
  NoDup (old (t th) :: cell_olds w) →
  Forall (λ l, l ∉ footprint (t th) ++ step_values w) (old (t th) :: cell_olds w) →
  Forall (old_fits h) [t th; uc w; vc w; wc w] →
  runs (cavity_step w th show_plot ts p_tot) h p_tot' h' tr →
  Forall (λ a, floats h' !! old a = floats h !! val a) [t th; uc w; vc w; wc w].
Proof.
  intros Htr Hadj Hnd Hsep Hfit Hr.
  destruct (modifies_flow_values w Htr Hadj) as (Hp & Hc1 & Hc2 & Hm).
  assert (Hsub : step_values w ⊆ footprint (t th) ++ step_values w)
    by (intros x Hx; apply elem_of_app; by right).
  unfold cavity_step in Hr.
  run_step Hr as ? Hpr. apply runs_emit in Hpr as (-> & _).
  eapply thermal_snapshots; [| done | done | done | exact Hr].
  frame_values Hsub Hp Hc1 Hc2 Hm Htr.
Qed.

(** C10: in the three programs a whole run of the time loop, however many
    steps and however it ends, writes within the arrays of a time step only:
    among the [old] arrays these are the ones of the cell-centred velocities
    and, in the thermal programs, of the temperature.  The [old] arrays of
    the face velocities, being other arrays, hold at the end what they held
    when the loop was entered (the zeros of their construction).  And every
    step that returns leaves in the [old] array of each cell-centred velocity
    (and of the temperature) the values the unknown had when the step began,
    the two arrays being distinct and of one shape.
    The transport and correction functions and [adj_n_bnds] are as the spec
    describes them. *)
Theorem old_values_of_a_run :
  transport_writes_values →
  adj_n_bnds_writes_boundaries →
  (∀ w ndt h,
     let h' := final (obstacles_loop w ndt h) in
     same_outside (step_writes w) h h' ∧
     (∀ l, l ∈ face_olds w → l ∉ step_writes w → floats h' !! l = floats h !! l)) ∧
  (∀ w th ndt h,
     let h' := final (plumes_loop w th ndt h) in
     same_outside (thermal_step_writes w th) h h' ∧
     (∀ l, l ∈ face_olds w → l ∉ thermal_step_writes w th →
        floats h' !! l = floats h !! l)) ∧
  (∀ w th show_plot ndt h,
     let h' := final (cavity_loop w th show_plot ndt h) in
     same_outside (thermal_step_writes w th) h h' ∧
     (∀ l, l ∈ face_olds w → l ∉ thermal_step_writes w th →
        floats h' !! l = floats h !! l)) ∧
  (∀ w ts h h' tr,
     NoDup (cell_olds w) → Forall (λ l, l ∉ step_values w) (cell_olds w) →
     Forall (old_fits h) [uc w; vc w; wc w] →
     runs (obstacles_step w ts) h tt h' tr →
     Forall (λ a, floats h' !! old a = floats h !! val a) [uc w; vc w; wc w]) ∧
  (∀ w th ts h h' tr,
     NoDup (old (t th) :: cell_olds w) →
     Forall (λ l, l ∉ footprint (t th) ++ step_values w) (old (t th) :: cell_olds w) →
     Forall (old_fits h) [t th; uc w; vc w; wc w] →
     runs (plumes_step w th ts) h tt h' tr →
     Forall (λ a, floats h' !! old a = floats h !! val a) [t th; uc w; vc w; wc w]) ∧
  (∀ w th show_plot ts p_tot h p_tot' h' tr,
     NoDup (old (t th) :: cell_olds w) →
     Forall (λ l, l ∉ footprint (t th) ++ step_values w) (old (t th) :: cell_olds w) →
     Forall (old_fits h) [t th; uc w; vc w; wc w] →
     runs (cavity_step w th show_plot ts p_tot) h p_tot' h' tr →
     Forall (λ a, floats h' !! old a = floats h !! val a) [t th; uc w; vc w; wc w]).
Proof.
  intros Htr Hadj. split_and!.
  - intros w ndt h h'.
    assert (Hm : same_outside (step_writes w) h h').
    { apply modifies_for_range. intros ts _. by apply modifies_obstacles_step. }
    split; [done|]. intros l _ Hl. by apply Hm.
  - intros w th ndt h h'.
    assert (Hm : same_outside (thermal_step_writes w th) h h').
    { apply modifies_for_range. intros ts _. by apply modifies_plumes_step. }
    split; [done|]. intros l _ Hl. by apply Hm.
  - intros w th show_plot ndt h h'.
    assert (Hm : same_outside (thermal_step_writes w th) h h').
    { apply modifies_for_range. intros ts p_tot. by apply modifies_cavity_step. }
    split; [done|]. intros l _ Hl. by apply Hm.
  - intros w ts h h' tr Hnd Hsep Hfit Hr. by eapply obstacles_step_snapshots.
  - intros w th ts h h' tr Hnd Hsep Hfit Hr. by eapply plumes_step_snapshots.
  - intros w th show_plot ts p_tot h p_tot' h' tr Hnd Hsep Hfit Hr.
    by eapply cavity_step_snapshots.
Qed.

End old_values_of_runs.

(** ** The two calls of [vol_balance] *)

Section call_sites.
Context {R Mat : Type} `{Num R} (D : Discretization R Mat) `{!Solver R Mat} `{!Display R}.
Implicit Types (h : heap R) (w : @flow R).

Lemma calls_of_app f (t1 t2 : list (event R Mat)) :
  calls_of f (t1 ++ t2) = calls_of f t1 ++ calls_of f t2.
Proof. apply List.filter_app. Qed.

Lemma runs_plot_trace w phi h h' (tr : list (event R Mat)) :
  runs (plot w phi) h tt h' tr → ∃ args, tr = [Call "plot_isolines" args].
Proof.
  unfold plot. intros Hr.
  run_step Hr as a Ha. run_step Hr as v Hv. run_step Hr as ? Hc.
  run_prim. run_inv_reads. eauto.
Qed.

(** What [calc_p] passes to [vol_balance] and to the solver. *)
Lemma calc_p_call_sites p uvwf rho dt dxyz obst h h' tr :
  runs (calc_p p uvwf rho dt dxyz obst) h tt h' tr →
  ∃ pv uvwf_v d b A,
    floats h !! val p = Some pv ∧
    runs (Mat := Mat) (view3 uvwf) h uvwf_v h [] ∧
    runs (Mat := Mat) (load3 dxyz) h d h [] ∧
    np.ravel (vol_balance uvwf_v d (np.zeros (shape pv))) (np.prod (shape pv)) = Ret b ∧
    calls_of "bicgstab" tr = [Call "bicgstab" [AMat A; AVec b; AScalar TOL]] ∧
    calls_of "vol_balance" tr =
      [Call "vol_balance" [AFields uvwf; ARefs dxyz; ATmp (np.zeros (shape pv))]].
Proof.
  intros Hr. apply calc_p_runs in Hr
    as (pv & p_view & rho_a & d & ob0 & uvwf_v & err & b & sol & ob' & h2 & tr_mask &
        Hpv & _ & _ & Hd & _ & Huv & _ & Hb & _ & _ & Hmask & _ & ->).
  exists pv, uvwf_v, d, b. eexists. split_and!; try done.
  - destruct (np.any ob').
    + destruct Hmask as (z & ? & _ & _ & _ & ->). reflexivity.
    + destruct Hmask as (_ & ->). reflexivity.
  - destruct (np.any ob').
    + destruct Hmask as (z & ? & _ & _ & _ & ->). reflexivity.
    + destruct Hmask as (_ & ->). reflexivity.
Qed.

(** C2: the right-hand side of the system that [calc_p] solves is the
    volume balance of the face velocities computed with an all-zero mask, and
    the right-hand side that [create_matrix] returns is not used (with any
    other one the call is the same); the check after the corrections in the
    time step calls [vol_balance] with the obstacle mask itself.  The two
    calls of a time step have the same velocities and spacings and differ in
    the mask. *)
Theorem vol_balance_call_sites :
  (∀ p uvwf rho dt dxyz obst h h' tr,
     runs (calc_p p uvwf rho dt dxyz obst) h tt h' tr →
     ∃ pv uvwf_v d b A,
       floats h !! val p = Some pv ∧
       runs (Mat := Mat) (view3 uvwf) h uvwf_v h [] ∧
       runs (Mat := Mat) (load3 dxyz) h d h [] ∧
       np.ravel (vol_balance uvwf_v d (np.zeros (shape pv))) (np.prod (shape pv))
         = Ret b ∧
       calls_of "bicgstab" tr = [Call "bicgstab" [AMat A; AVec b; AScalar TOL]]) ∧
  (∀ rhs p uvwf rho dt dxyz obst h,
     calc_p (Discretization0 := with_rhs D rhs) p uvwf rho dt dxyz obst h =
     calc_p (Discretization0 := D) p uvwf rho dt dxyz obst h) ∧
  (∀ w ts h h' tr,
     runs (obstacles_step w ts) h tt h' tr →
     ∃ rc_p,
       calls_of "vol_balance" tr =
         [Call "vol_balance"
            [AFields (uf w, vf w, wf w); ARefs (dx w, dy w, dz w); ATmp (np.zeros rc_p)];
          Call "vol_balance"
            [AFields (uf w, vf w, wf w); ARefs (dx w, dy w, dz w); ARef (obst w)]]).
Proof.
  split_and!.
  - intros p uvwf rho dt dxyz obst h h' tr Hr.
    apply calc_p_call_sites in Hr as (pv & uvwf_v & d & b & A & ? & ? & ? & ? & ? & _).
    by exists pv, uvwf_v, d, b, A.
  - intros. by apply calc_p_discards_rhs.
  - intros w ts h h' tr Hr. unfold obstacles_step in Hr.
    run_step Hr as ? Hpr. run_step Hr as ? H1. run_step Hr as ? H2. run_step Hr as ? H3.
    run_step Hr as ? Hmom. run_step Hr as ? Hpc at h4 t4.
    run_step Hr as ? Hc1. run_step Hr as ? Hc2. run_step Hr as ? Hdiag at h7 t7.
    repeat match goal with u : unit |- _ => destruct u end.
    apply runs_emit in Hpr as (-> & ->).
    apply runs_store_old in H1 as (? & ? & ? & _ & _ & _ & -> & ->).
    apply runs_store_old in H2 as (? & ? & ? & _ & _ & _ & -> & ->).
    apply runs_store_old in H3 as (? & ? & ? & _ & _ & _ & -> & ->).
    unfold momentum in Hmom. apply runs_extern in Hmom as (_ & ->).
    apply runs_pressure_call in Hpc as (tr_p & Hp & ->).
    apply calc_p_call_sites in Hp as (pv & _ & _ & _ & _ & _ & _ & _ & _ & _ & Hvb).
    apply runs_correct in Hc1 as (_ & ->). apply runs_correct in Hc2 as (_ & ->).
    apply runs_diagnostics in Hdiag as (_ & ? & ? & ? & ? & ? & _ & _ & _ & _ & _ & ->).
    assert (Hv : ∀ tv : list (event R Mat), runs (if decide (ts mod 20 = 0) then plot w (val (p w)) else ret tt)
                         h7 tt h' tv → calls_of "vol_balance" tv = []).
    { intros tv Hq. destruct (decide (ts mod 20 = 0)).
      - apply runs_plot_trace in Hq as (args & ->). reflexivity.
      - by apply runs_ret in Hq as (_ & _ & ->). }
    exists (shape pv).
    rewrite !calls_of_app. rewrite (Hv _ Hr).
    cbn [calls_of List.filter String.eqb Ascii.eqb Bool.eqb app].
    fold (calls_of "vol_balance" tr_p). rewrite Hvb. reflexivity.
Qed.

End call_sites.

(** ** The stand-ins keep the contracts *)

Section standin_contracts.
Context {R : Type} `{Num R}.

Lemma close_side_modifies {Mat} ls (f : unknown) d :
  Bnd.val (bnd f d) ∈ ls → modifies ls (close_side (R := R) (Mat := Mat) f d).
Proof. intros Hin. unfold close_side. frame. by apply modifies_store. Qed.

Lemma adj_n_bnds_spec_modifies {Mat} (f : unknown) :
  modifies (bnd_vals f) (adj_n_bnds_spec (R := R) (Mat := Mat) f).
Proof.
  unfold adj_n_bnds_spec, bnd_vals, Compass.all.
  frame_using ltac:(apply close_side_modifies; simpl; set_solver).
Qed.

Lemma as_step_writes_within {Mat} ls (m : M R Mat unit) :
  modifies ls m → writes_within ls (as_step m).
Proof. intros Hm h. apply Hm. Qed.

Lemma standin_adj :
  adj_n_bnds_writes_boundaries (Discretization0 := Standin.discretization (R := R)).
Proof. intros f. apply as_step_writes_within, adj_n_bnds_spec_modifies. Qed.

Lemma standin_zero :
  obst_zero_val_as_specified (Discretization0 := Standin.discretization (R := R)).
Proof. by intros ps v o. Qed.

Lemma standin_transport :
  transport_writes_values (Discretization0 := Standin.discretization (R := R)).
Proof. split_and!; intros; intros h; apply same_outside_refl. Qed.

End standin_contracts.

(** Membership in an explicit list of arrays, by evaluation. *)
Ltac by_evaluation := apply (bool_decide_unpack _); vm_compute; exact I.

(** ** The theorems on the cube *)

Section cube.
Import Standin.

Abbreviation cube_uvwf := (uf cube_flow, vf cube_flow, wf cube_flow).
Abbreviation cube_dxyz := (dx cube_flow, dy cube_flow, dz cube_flow).
Abbreviation cube_mask := (NdArray (3, 3, 3) centre_mask).

(** Whatever the solver reports, the pressure of the solid cell of the cube
    is zero after the pressure step. *)
Lemma calc_p_zero_in_obstacle_cube :
  ∃ pv,
    floats (final (cube_calc_p stalled cube_moving)) !! val (p cube_flow) = Some pv ∧
    ∀ ijk m, np.item cube_mask ijk = Some m → ftruth m = true →
             np.item pv ijk = Some fzero.
Proof.
  pose proof (calc_p_zero_in_obstacle (Solver0 := stalled)
                (p cube_flow) cube_uvwf (rho cube_flow) (dt cube_flow) cube_dxyz
                (obst cube_flow) cube_moving
                (final (cube_calc_p stalled cube_moving))
                (trace (cube_calc_p stalled cube_moving)) cube_mask) as W.
  apply W.
  - apply standin_zero.
  - apply standin_adj.
  - by_evaluation.
  - by vm_compute.
  - vm_compute. reflexivity.
  - unfold runs. vm_compute. reflexivity.
Defined.

(** The pressure step on the cube with a solver that converges and with one
    that does not. *)
Lemma calc_p_solver_flag_cube :
  let r1 := cube_calc_p converged cube_moving in
  let r2 := cube_calc_p stalled cube_moving in
  outcome r1 = outcome r2 ∧
  final r1 = final r2 ∧
  (outcome r1 = Ret tt →
   ∃ err imb A b pv sol ob masked,
     calls_of "bicgstab" (trace r1) = [Call "bicgstab" [AMat A; AVec b; AScalar TOL]] ∧
     printed (trace r1) =
       [Print "Maximum volume error before correction: " err;
        Print "Volume imbalance before correction    : " imb;
        PrintInfo "res[1] = " (bicgstab (Solver := converged) A b TOL).2] ∧
     floats cube_moving !! val (p cube_flow) = Some pv ∧
     np.reshape (bicgstab (Solver := converged) A b TOL).1 (shape pv) = Ret sol ∧
     floats (with_val (p cube_flow) (anchor sol) cube_moving) !! obst cube_flow
       = Some ob ∧
     (if np.any ob
      then ∃ z, obst_zero_val (pos (p cube_flow)) (anchor sol) ob = Ret z ∧
                np.broadcast_to z (shape pv) = Ret masked
      else masked = anchor sol) ∧
     adj_n_bnds (p cube_flow) (with_val (p cube_flow) masked cube_moving)
       = (Ret tt, final r1) ∧
     (adj_n_bnds_writes_boundaries (R := float) (Mat := unit) →
      val (p cube_flow) ∉ bnd_vals (p cube_flow) →
      floats (final r1) !! val (p cube_flow) = Some masked)).
Proof.
  pose proof (calc_p_solver_flag discretization converged stalled
                (p cube_flow) cube_uvwf (rho cube_flow) (dt cube_flow) cube_dxyz
                (obst cube_flow) cube_moving) as W.
  apply W. intros A b tol. reflexivity.
Defined.

(** C3, as stated, fails: on the cube the call returns no value and leaves
    the same store whether the solver reports convergence (0) or three
    iterations without convergence, so its caller cannot tell the two apart;
    of the solve it prints the flag and nothing else (the two figures printed
    before are the volume error and imbalance of the velocities, computed
    before the solve).  And a solver that stops at the zero initial guess,
    with another iterate and so another residual, makes the call print the
    very same lines as the one that solves the system. *)
Lemma calc_p_reports_flag_only :
  let r0 := cube_calc_p converged cube_moving in
  let r3 := cube_calc_p stalled cube_moving in
  let rz := cube_calc_p rough cube_moving in
  outcome r0 = Ret tt ∧
  outcome r3 = Ret tt ∧
  final r3 = final r0 ∧
  printed (trace r3) =
    [Print "Maximum volume error before correction: " 18%float;
     Print "Volume imbalance before correction    : " 171%float;
     PrintInfo "res[1] = " 3] ∧
  outcome rz = Ret tt ∧
  printed (trace rz) = printed (trace r0) ∧
  floats (final rz) !! val (p cube_flow) ≠ floats (final r0) !! val (p cube_flow).
Proof.
  cbv zeta. split_and!; try (vm_compute; reflexivity).
  intros Heq.
  assert (Hb : (λ o, match o with
                     | Some a => PrimFloat.eqb (hd 1%float (data a)) 0%float
                     | None => false
                     end) (floats (final (cube_calc_p rough cube_moving))
                             !! val (p cube_flow))
               = (λ o, match o with
                       | Some a => PrimFloat.eqb (hd 1%float (data a)) 0%float
                       | None => false
                       end) (floats (final (cube_calc_p converged cube_moving))
                               !! val (p cube_flow)))
    by (by rewrite Heq).
  vm_compute in Hb. discriminate Hb.
Qed.

(** The four phases of the pressure step on the cube. *)
Lemma calc_p_four_phases_cube :
  let p := p cube_flow in
  let h := cube_moving in
  let r := cube_calc_p converged h in
  let ob := cube_mask in
  ∃ p_view rho_a d uvwf_v b sol masked,
    runs (Mat := unit) (view p) h p_view h [] ∧
    floats h !! rho cube_flow = Some rho_a ∧
    runs (Mat := unit) (load3 cube_dxyz) h d h [] ∧
    runs (Mat := unit) (view3 cube_uvwf) h uvwf_v h [] ∧
    let rc := shape (v_val p_view) in
    let A_p := (create_matrix p_view (np.zeros rc)
                  (np.map_array (fdiv (dt cube_flow)) rho_a) d ob "n").1 in
    np.ravel (vol_balance uvwf_v d (np.zeros rc)) (np.prod rc) = Ret b ∧
    np.reshape (bicgstab (Solver := converged) A_p b TOL).1 rc = Ret sol ∧
    (if np.any ob
     then ∃ z, obst_zero_val (pos p) (np.map_array (λ v, fsub v (np.mean sol)) sol) ob
               = Ret z ∧
               np.broadcast_to z rc = Ret masked
     else masked = np.map_array (λ v, fsub v (np.mean sol)) sol) ∧
    shape masked = rc ∧
    (obst_zero_val_as_specified (R := float) (Mat := unit) →
     ∀ ijk m, np.item ob ijk = Some m →
       np.item masked ijk =
         if ftruth m then Some fzero
         else np.item (np.map_array (λ v, fsub v (np.mean sol)) sol) ijk) ∧
    adj_n_bnds p (with_val p masked h) = (Ret tt, final r) ∧
    calls (trace r) = ["create_matrix"; "vol_balance"; "bicgstab"]
               ++ (if np.any ob then ["obst_zero_val"] else [])
               ++ ["adj_n_bnds"] ∧
    (adj_n_bnds_writes_boundaries (R := float) (Mat := unit) →
     same_outside (footprint p) h (final r)).
Proof.
  cbv zeta.
  pose proof (calc_p_four_phases (Solver0 := converged)
                (p cube_flow) cube_uvwf (rho cube_flow) (dt cube_flow) cube_dxyz
                (obst cube_flow) cube_moving
                (final (cube_calc_p converged cube_moving))
                (trace (cube_calc_p converged cube_moving)) cube_mask) as W.
  apply W.
  - by vm_compute.
  - vm_compute. reflexivity.
  - unfold runs. vm_compute. reflexivity.
Defined.

(** With no solid cell and the velocities at rest the pressure step returns,
    the pressure is zero and the solver reports 0. *)
Lemma calc_p_zero_source_open :
  ∃ h' tr,
    runs (cube_calc_p converged) open_heap tt h' tr ∧
    floats h' !! val (p cube_flow) = Some (np.zeros (3, 3, 3)) ∧
    PrintInfo "res[1] = " 0 ∈ tr.
Proof.
  pose proof (calc_p_zero_source (Solver0 := converged)
                (p cube_flow) cube_uvwf (rho cube_flow) (dt cube_flow) cube_dxyz
                (obst cube_flow) open_heap (np.zeros (3, 3, 3)) open_p_view
                (np.full (3, 3, 3) 1%float)
                (np.full (3, 3, 3) 1%float, np.full (3, 3, 3) 1%float,
                 np.full (3, 3, 3) 1%float)
                (np.zeros (3, 3, 3)) open_uvwf_view) as W.
  apply W.
  - vm_compute. reflexivity.
  - vm_compute. reflexivity.
  - vm_compute. reflexivity.
  - intros A n tol. reflexivity.
  - apply standin_adj.
  - vm_compute. reflexivity.
  - by_evaluation.
  - by vm_compute.
  - vm_compute. reflexivity.
  - by vm_compute.
  - unfold runs. vm_compute. reflexivity.
  - vm_compute. reflexivity.
  - unfold runs. vm_compute. reflexivity.
  - unfold runs. vm_compute. reflexivity.
  - vm_compute. reflexivity.
  - vm_compute. reflexivity.
  - vm_compute. reflexivity.
Defined.

(** Two steps of the obstacle program on the cube leave the [old] arrays of
    the face velocities as they were, and one step leaves in the [old]
    arrays of the cell-centred velocities the values from before the step. *)
Lemma old_values_of_a_run_cube :
  (∀ l, l ∈ face_olds cube_flow →
     floats (final (obstacles_loop (Solver0 := stalled) cube_flow 2 cube_stirred)) !! l
     = floats cube_stirred !! l) ∧
  Forall (λ a, floats (final (obstacles_step (Solver0 := stalled) cube_flow 1
                                cube_stirred)) !! old a
               = floats cube_stirred !! val a)
    [uc cube_flow; vc cube_flow; wc cube_flow].
Proof.
  pose proof (old_values_of_a_run (R := float) (Mat := unit) (Solver0 := stalled)
                standin_transport standin_adj) as (H1 & _ & _ & H4 & _).
  split.
  - intros l Hl. apply (proj2 (H1 cube_flow 2 cube_stirred)); [exact Hl|].
    unfold face_olds in Hl.
    repeat (apply elem_of_cons in Hl as [->|Hl]); [by_evaluation..|].
    by apply elem_of_nil in Hl.
  - apply (H4 cube_flow 1 cube_stirred _
             (trace (obstacles_step (Solver0 := stalled) cube_flow 1 cube_stirred))).
    + by_evaluation.
    + by_evaluation.
    + repeat constructor; vm_compute; reflexivity.
    + unfold runs. vm_compute. reflexivity.
Defined.

(** A step of the plumes program and one of the cavity program on the
    cube, both with plots due. *)
Lemma time_step_order_cube :
  let r1 := plumes_step (Solver0 := converged) cube_flow cube_heat 150 cube_stirred in
  let r2 := cavity_step (Solver0 := converged) cube_flow cube_heat true 20
              (np.zeros (3, 3, 3)) cube_stirred in
  (outcome r1 = Ret tt ∧
   ∃ tr_v,
     thermal_phases (Solver0 := converged) cube_flow cube_heat (np.zeros (3, 3, 3))
       (λ t_val, (np.zeros (3, 3, 3), np.map_array (fmul (fnat 150)) t_val,
                  np.zeros (3, 3, 3)))
       cube_stirred (final r1) (trace r1) tr_v ∧
     calls tr_v = ["plot_isolines"; "plot_isolines"]) ∧
  (∃ p_tot' tr_v,
     outcome r2 = Ret p_tot' ∧
     thermal_phases (Solver0 := converged) cube_flow cube_heat (np.zeros (3, 3, 3))
       (λ t_val, (np.zeros (3, 3, 3), t_val, np.zeros (3, 3, 3)))
       cube_stirred (final r2) (trace r2) tr_v ∧
     calls tr_v = ["plot_isolines"]).
Proof.
  cbv zeta.
  pose proof (time_step_order (Solver0 := converged) cube_flow cube_heat) as [W1 W2].
  split.
  - split; [vm_compute; reflexivity|].
    apply (W1 150 cube_stirred). unfold runs. vm_compute. reflexivity.
  - eexists. 
    destruct (W2 true 20 (np.zeros (3, 3, 3)) cube_stirred
                (result_or (np.zeros (0, 0, 0))
                   (cavity_step (Solver0 := converged) cube_flow cube_heat true 20
                      (np.zeros (3, 3, 3)) cube_stirred))
                (final (cavity_step (Solver0 := converged) cube_flow cube_heat true 20
                          (np.zeros (3, 3, 3)) cube_stirred))
                (trace (cavity_step (Solver0 := converged) cube_flow cube_heat true 20
                          (np.zeros (3, 3, 3)) cube_stirred)))
      as (tr_v & Hph & Hc).
    + unfold runs. vm_compute. reflexivity.
    + exists tr_v. split; [vm_compute; reflexivity|]. split; [exact Hph | exact Hc].
Defined.

End cube.

(** ** How [calc_p] fails *)

Section forward.
Context {R Mat : Type}.

(** The run [r], after what [t1] records. *)
Definition after {A} (t1 : list (event R Mat)) (r : run R Mat A) : run R Mat A :=
  Run (outcome r) (final r) (t1 ++ trace r).

(** A statement that returns hands over to the next one. *)
Lemma bind_runs {A B} (m : M R Mat A) (k : A → M R Mat B) h a h1 t1 :
  runs m h a h1 t1 → bind m k h = after t1 (k a h1).
Proof. unfold runs, bind, after. by intros ->. Qed.

(** One that raises ends the run. *)
Lemma bind_raises {A B} (m : M R Mat A) (k : A → M R Mat B) h e h1 t1 :
  m h = Run (Raise e) h1 t1 → bind m k h = Run (Raise e) h1 t1.
Proof. unfold bind. by intros ->. Qed.

Lemma lift_raises {A} (r : res A) e (h : heap R) :
  r = Raise e → lift (Mat := Mat) r h = Run (Raise e) h [].
Proof. by intros ->. Qed.

Lemma emit_runs (e : event R Mat) h : runs (emit e) h tt h [e].
Proof. done. Qed.

Lemma lift_runs {A} (r : res A) (a : A) (h : heap R) :
  r = Ret a → runs (Mat := Mat) (lift r) h a h [].
Proof. by intros ->. Qed.

Lemma load_runs l (a : ndarray R) (h : heap R) :
  floats h !! l = Some a → runs (Mat := Mat) (load l) h a h [].
Proof. intros Hl. by apply runs_load. Qed.

Lemma after_after {A} t1 t2 (r : run R Mat A) :
  after t1 (after t2 r) = after (t1 ++ t2) r.
Proof. unfold after; simpl. by rewrite app_assoc. Qed.

Lemma bind_emit {B} (e : event R Mat) (k : unit → M R Mat B) h :
  bind (emit e) k h = after [e] (k tt h).
Proof. apply bind_runs, emit_runs. Qed.

Lemma bind_lift {A B} (r : res A) a (k : A → M R Mat B) h :
  r = Ret a → bind (lift r) k h = after [] (k a h).
Proof. intros Hr. by apply bind_runs, lift_runs. Qed.

Lemma bind_load {B} l a (k : ndarray R → M R Mat B) h :
  floats h !! l = Some a → bind (load l) k h = after [] (k a h).
Proof. intros Hl. by apply bind_runs, load_runs. Qed.

End forward.

(** One statement forward, given that it returns. *)
Ltac forward :=
  first
    [ rewrite bind_emit
    | erewrite bind_load by eassumption
    | erewrite bind_lift by eassumption
    | match goal with
      | H : runs ?m ?h _ _ _ |- context [bind ?m _ ?h] =>
          rewrite (bind_runs _ _ _ _ _ _ H)
      end ].

Ltac forward_by tac := erewrite bind_runs by tac.

Section calc_p_failures.
Context {R Mat : Type} `{Num R} `{!Discretization R Mat} `{!Solver R Mat}.
Implicit Types (h : heap R) (p : unknown).

(** X1: on a grid with no cell [calc_p] raises ValueError: the maximum of the empty
    volume balance does not exist.  The solver has not been called, nothing
    has been printed and the store is as it was. *)
Theorem calc_p_empty_grid p uvwf rho dt dxyz obst h pv p_view rho_a d ob uvwf_v :
  floats h !! val p = Some pv →
  runs (Mat := Mat) (view p) h p_view h [] →
  floats h !! rho = Some rho_a →
  runs (Mat := Mat) (load3 dxyz) h d h [] →
  floats h !! obst = Some ob →
  runs (Mat := Mat) (view3 uvwf) h uvwf_v h [] →
  np.wf (vol_balance uvwf_v d (np.zeros (shape pv))) →
  shape (vol_balance uvwf_v d (np.zeros (shape pv))) = shape pv →
  np.prod (shape pv) = 0 →
  let r := calc_p p uvwf rho dt dxyz obst h in
  outcome r = Raise ValueError ∧
  final r = h ∧
  calls (trace r) = ["create_matrix"; "vol_balance"] ∧
  printed (trace r) = [].
Proof.
  intros Hpv Hview Hrho Hd Hob Huv Hwf Hsh Hn r. subst r. unfold calc_p.
  do 6 forward. destruct (create_matrix _ _ _ _ _ _) as [A_p b0].
  do 3 forward.
  assert (Hb : data (vol_balance uvwf_v d (np.zeros (shape pv))) = []).
  { apply nil_length_inv. unfold np.wf in Hwf. by rewrite Hwf, Hsh. }
  rewrite (bind_raises _ _ h ValueError h []).
  2:{ apply lift_raises. unfold np.max, np.abs, np.map_array. simpl. by rewrite Hb. }
  done.
Qed.

(** X2: when the solver hands back a vector that has not one entry per
    cell, [calc_p] raises ValueError at the reshape; the pressure has not been
    written, the store is as it was, and the flag of the solver is not
    printed. *)
Theorem calc_p_wrong_length p uvwf rho dt dxyz obst h pv p_view rho_a d ob uvwf_v err b :
  floats h !! val p = Some pv →
  runs (Mat := Mat) (view p) h p_view h [] →
  floats h !! rho = Some rho_a →
  runs (Mat := Mat) (load3 dxyz) h d h [] →
  floats h !! obst = Some ob →
  runs (Mat := Mat) (view3 uvwf) h uvwf_v h [] →
  let rc := shape pv in
  let A_p := (create_matrix p_view (np.zeros rc) (np.map_array (fdiv dt) rho_a)
                d ob "n").1 in
  let b_p := vol_balance uvwf_v d (np.zeros rc) in
  np.max (np.abs b_p) = Ret err →
  np.ravel b_p (np.prod rc) = Ret b →
  length (bicgstab A_p b TOL).1 ≠ np.prod rc →
  let r := calc_p p uvwf rho dt dxyz obst h in
  outcome r = Raise ValueError ∧
  final r = h ∧
  calls (trace r) = ["create_matrix"; "vol_balance"; "bicgstab"] ∧
  printed (trace r) =
    [Print "Maximum volume error before correction: " err;
     Print "Volume imbalance before correction    : " (np.sum b_p)].
Proof.
  intros Hpv Hview Hrho Hd Hob Huv rc A_p b_p Herr Hb Hlen r.
  subst r rc A_p b_p. unfold calc_p.
  do 6 forward. destruct (create_matrix _ _ _ _ _ _) as [A_p b0]. simpl in *.
  do 8 forward.
  rewrite (bind_raises _ _ h ValueError h []).
  2:{ apply lift_raises. unfold np.reshape. by rewrite decide_False. }
  done.
Qed.

(** X3: [calc_p] does not undo what it has written.  When [obst_zero_val]
    raises, the call ends with that exception and [p.val] holds the anchored
    solution; when [adj_n_bnds] raises, the call ends with that exception in
    the store [adj_n_bnds] left, the masked field assigned before. *)
Theorem calc_p_partial_result p uvwf rho dt dxyz obst h pv p_view rho_a d ob uvwf_v
    err b sol :
  floats h !! val p = Some pv →
  runs (Mat := Mat) (view p) h p_view h [] →
  floats h !! rho = Some rho_a →
  runs (Mat := Mat) (load3 dxyz) h d h [] →
  floats h !! obst = Some ob →
  runs (Mat := Mat) (view3 uvwf) h uvwf_v h [] →
  obst ≠ val p →
  let rc := shape pv in
  let A_p := (create_matrix p_view (np.zeros rc) (np.map_array (fdiv dt) rho_a)
                d ob "n").1 in
  let b_p := vol_balance uvwf_v d (np.zeros rc) in
  np.max (np.abs b_p) = Ret err →
  np.ravel b_p (np.prod rc) = Ret b →
  np.reshape (bicgstab A_p b TOL).1 rc = Ret sol →
  let r := calc_p p uvwf rho dt dxyz obst h in
  (∀ e, np.any ob = true →
        obst_zero_val (pos p) (anchor sol) ob = Raise e →
        outcome r = Raise e ∧ final r = with_val p (anchor sol) h) ∧
  (∀ masked e h3,
     (if np.any ob
      then ∃ z, obst_zero_val (pos p) (anchor sol) ob = Ret z ∧
                np.broadcast_to z rc = Ret masked
      else masked = anchor sol) →
     adj_n_bnds p (with_val p masked h) = (Raise e, h3) →
     outcome r = Raise e ∧ final r = h3).
Proof.
  intros Hpv Hview Hrho Hd Hob Huv Hne rc A_p b_p Herr Hb Hsol r.
  pose proof (reshape_wf _ _ _ Hsol) as [_ Hrc].
  assert (Hr : r = after
            [Call "create_matrix"
               [AField p; ATmp (np.zeros rc); ATmp (np.map_array (fdiv dt) rho_a);
                ARefs dxyz; ARef obst; AStr "n"];
             Call "vol_balance" [AFields uvwf; ARefs dxyz; ATmp (np.zeros rc)];
             Print "Maximum volume error before correction: " err;
             Print "Volume imbalance before correction    : " (np.sum b_p);
             Call "bicgstab" [AMat A_p; AVec b; AScalar TOL];
             PrintInfo "res[1] = " (bicgstab A_p b TOL).2]
            (((if np.any ob then
                 p_val <- load (val p) ;;
                 ob <- load obst ;;
                 emit (Call "obst_zero_val" [AStr "p.pos"; ARef (val p); ARef obst]) ;;;
                 z <- lift (obst_zero_val (pos p) p_val ob) ;;
                 store (val p) z
               else ret tt) ;;;
              extern "adj_n_bnds" [AField p] (adj_n_bnds p))
               (with_val p (anchor sol) h))).
  { subst r rc A_p b_p. unfold calc_p.
    do 6 forward. destruct (create_matrix _ _ _ _ _ _) as [A_p b0]. simpl in *.
    do 9 forward.
    rewrite (bind_runs _ _ _ _ _ _ (runs_store_same _ _ _ _ Hpv Hrc)).
    forward.
    erewrite bind_load by apply lookup_insert_eq.
    erewrite bind_runs
      by (eapply runs_store_same; [apply lookup_insert_eq | reflexivity]).
    cbn [floats kinds]. rewrite insert_insert_eq.
    erewrite bind_load by (cbn [floats]; rewrite lookup_insert_ne by done; exact Hob).
    rewrite !after_after. reflexivity. }
  rewrite Hr. clear Hr. split.
  - intros e Hany Hz. rewrite Hany.
    erewrite bind_raises; [done|].
    erewrite bind_load by apply lookup_insert_eq.
    erewrite bind_load
      by (unfold with_val; cbn [floats]; rewrite lookup_insert_ne by done; exact Hob).
    forward.
    rewrite (bind_raises _ _ _ e (with_val p (anchor sol) h) []); [done|].
    by apply lift_raises.
  - intros masked e h3 Hmask Hadj.
    assert (Hm : ∃ t, runs (Mat := Mat) (if np.any ob then
                 p_val <- load (val p) ;;
                 ob <- load obst ;;
                 emit (Call "obst_zero_val" [AStr "p.pos"; ARef (val p); ARef obst]) ;;;
                 z <- lift (obst_zero_val (pos p) p_val ob) ;;
                 store (val p) z
               else ret tt) (with_val p (anchor sol) h) tt (with_val p masked h) t).
    { destruct (np.any ob).
      - destruct Hmask as (z & Hz & Hbz). eexists.
        eapply runs_bind_intro; [reflexivity | apply load_runs, lookup_insert_eq |].
        eapply runs_bind_intro;
          [reflexivity
          | apply load_runs; unfold with_val; cbn [floats];
            rewrite lookup_insert_ne by done; exact Hob |].
        eapply runs_bind_intro; [reflexivity | apply emit_runs |].
        eapply runs_bind_intro; [reflexivity | apply lift_runs, Hz |].
        apply runs_store. split; [|reflexivity].
        exists (anchor sol), masked. split_and!; [apply lookup_insert_eq | |].
        + cbn [shape anchor np.map_array]. by rewrite Hrc.
        + unfold with_val; cbn [floats kinds]. by rewrite insert_insert_eq.
      - subst masked. exists []. by apply runs_ret. }
    destruct Hm as (t & Hm). forward.
    unfold extern. rewrite Hadj. done.
Qed.

End calc_p_failures.

(** ** What a whole run prints and calls *)

Section never.
Context {R Mat : Type}.
Implicit Types (P : event R Mat → bool) (h : heap R).

(** Whatever its outcome, [m] records no event that [P] selects. *)
Definition never {A} P (m : M R Mat A) : Prop :=
  ∀ h, List.filter P (trace (m h)) = [].

Lemma never_ret {A} P (a : A) : never P (ret a).
Proof. by intros h. Qed.

Lemma never_lift {A} P (r : res A) : never P (lift r).
Proof. intros h. by destruct r. Qed.

Lemma never_emit P e : P e = false → never P (emit e).
Proof. intros He h. simpl. by rewrite He. Qed.

Lemma never_load P l : never P (load l).
Proof. intros h. unfold load. by destruct (floats h !! l). Qed.

Lemma never_load_kinds P l : never P (load_kinds l).
Proof. intros h. unfold load_kinds. by destruct (kinds h !! l). Qed.

Lemma never_store P l a : never P (store l a).
Proof.
  intros h. unfold store. destruct (floats h !! l) as [a0|]; [|done].
  by destruct (np.broadcast_to a (shape a0)).
Qed.

Lemma never_extern P f args step : P (Call f args) = false → never P (extern f args step).
Proof. intros He h. unfold extern. destruct (step h). simpl. by rewrite He. Qed.

Lemma never_bind {A B} P (m : M R Mat A) (k : A → M R Mat B) :
  never P m → (∀ a, never P (k a)) → never P (bind m k).
Proof.
  intros Hm Hk h. unfold bind. specialize (Hm h).
  destruct (m h) as [[a|e] h1 t1]; simpl in *; [|done].
  by rewrite List.filter_app, Hm, Hk.
Qed.

Lemma never_view_bnd P b : never P (view_bnd b).
Proof.
  unfold view_bnd.
  apply never_bind; [apply never_load_kinds | intros ty].
  apply never_bind; [apply never_load | intros v]. apply never_ret.
Qed.

Lemma never_view P f : never P (view f).
Proof.
  unfold view.
  do 2 (apply never_bind; [apply never_load | intros ?]).
  do 6 (apply never_bind; [apply never_view_bnd | intros ?]).
  apply never_ret.
Qed.

Lemma never_view3 P uvw : never P (view3 uvw).
Proof.
  destruct uvw as [[u v] w]. unfold view3.
  do 3 (apply never_bind; [apply never_view | intros ?]). apply never_ret.
Qed.

Lemma never_load3 P dxyz : never P (load3 dxyz).
Proof.
  destruct dxyz as [[dx dy] dz]. unfold load3.
  do 3 (apply never_bind; [apply never_load | intros ?]). apply never_ret.
Qed.

(** In a run that returns. *)
Lemma never_runs {A} P (m : M R Mat A) h a h' tr :
  never P m → runs m h a h' tr → List.filter P tr = [].
Proof. intros Hm Hr. specialize (Hm h). unfold runs in Hr. by rewrite Hr in Hm. Qed.

(** A statement that records nothing of the kind can be passed over. *)
Lemma runs_bind_never {A B} P (m : M R Mat A) (k : A → M R Mat B) h b h2 tr :
  never P m → runs (bind m k) h b h2 tr →
  ∃ a h1 t2, runs (k a) h1 b h2 t2 ∧ List.filter P tr = List.filter P t2.
Proof.
  intros Hm Hr. apply runs_bind in Hr as (a & h1 & t1 & t2 & H1 & H2 & ->).
  exists a, h1, t2. split; [done|].
  by rewrite List.filter_app, (never_runs _ _ _ _ _ _ Hm H1).
Qed.

End never.

(** Statement by statement; [tac] is tried first on each statement. *)
Ltac never_using tac :=
  repeat first
    [ tac
    | match goal with
      | |- never _ (ret _) => apply never_ret
      | |- never _ (lift _) => apply never_lift
      | |- never _ (load _) => apply never_load
      | |- never _ (load_kinds _) => apply never_load_kinds
      | |- never _ (store _ _) => apply never_store
      | |- never _ (view _) => apply never_view
      | |- never _ (view3 _) => apply never_view3
      | |- never _ (load3 _) => apply never_load3
      | |- never _ (emit _) => apply never_emit; reflexivity
      | |- never _ (extern _ _ _) => apply never_extern; reflexivity
      | |- never _ (bind _ _) => apply never_bind; [|intros ?]
      | |- never _ (if ?c then _ else _) => destruct c
      | |- never _ (let '(_, _) := ?x in _) => destruct x
      end ].

Ltac never_ := never_using fail.

Section loops.
Context {R Mat : Type} `{Num R} `{!Discretization R Mat} `{!Solver R Mat} `{!Display R}.
Implicit Types (h : heap R) (w : @flow R) (th : heat) (P : event R Mat → bool).

(** The events that announce a time step, and the calls of a function. *)
Definition is_step (e : event R Mat) : bool :=
  match e with PrintTimeStep _ => true | _ => false end.

Definition is_call (f : string) (e : event R Mat) : bool :=
  match e with Call g _ => String.eqb g f | _ => false end.

Lemma steps_printed_filter (tr : list (event R Mat)) :
  List.filter is_step tr = [] → steps_printed tr = [].
Proof.
  induction tr as [|e tr IH]; [done|]. simpl.
  destruct e; simpl; try done; intros Hf; by apply IH.
Qed.

Lemma steps_printed_app (t1 t2 : list (event R Mat)) :
  steps_printed (t1 ++ t2) = steps_printed t1 ++ steps_printed t2.
Proof. apply omap_app. Qed.

(** Nothing but the first statement of a step announces a time step. *)
Lemma calc_p_never P p uvwf rho dt dxyz obst :
  (∀ text x, P (Print text x) = false) →
  (∀ text i, P (PrintInfo text i) = false) →
  (∀ f args, f ∈ ["create_matrix"; "vol_balance"; "bicgstab"; "obst_zero_val";
                  "adj_n_bnds"] → P (Call f args) = false) →
  never P (calc_p p uvwf rho dt dxyz obst).
Proof.
  intros Hpr Hpi Hc. unfold calc_p.
  never_using ltac:(first
    [ apply never_emit; first [apply Hpr | apply Hpi | apply Hc; set_solver]
    | apply never_extern; apply Hc; set_solver ]).
Qed.


(** A step announces itself first, and what follows announces nothing. *)
Lemma step_announced (rest : M R Mat unit) ts h :
  never is_step rest →
  steps_printed (trace ((emit (PrintTimeStep ts) ;;; rest) h)) = [ts].
Proof.
  intros Hrest. unfold bind. simpl. f_equal. apply steps_printed_filter, Hrest.
Qed.

Lemma step_announced_with {A} (rest : M R Mat A) ts h :
  never is_step rest →
  steps_printed (trace ((emit (PrintTimeStep ts) ;;; rest) h)) = [ts].
Proof.
  intros Hrest. unfold bind. simpl. f_equal. apply steps_printed_filter, Hrest.
Qed.

Lemma obstacles_step_announced w ts h :
  steps_printed (trace (obstacles_step w ts h)) = [ts].
Proof.
  unfold obstacles_step. apply step_announced.
  unfold store_old, momentum, pressure_call, calc_p, correct, diagnostics, plot.
  never_.
Qed.

Lemma plumes_step_announced w th ts h :
  steps_printed (trace (plumes_step w th ts h)) = [ts].
Proof.
  unfold plumes_step. apply step_announced.
  unfold store_old, temperature, momentum, pressure_call, calc_p, correct,
    diagnostics, plot.
  never_.
Qed.

Lemma cavity_step_announced w th show_plot ts p_tot h :
  steps_printed (trace (cavity_step w th show_plot ts p_tot h)) = [ts].
Proof.
  unfold cavity_step. apply step_announced_with.
  unfold store_old, temperature, momentum, pressure_call, calc_p, correct,
    diagnostics, plot.
  never_.
Qed.

(** [for ts in range(first, first + n)] *)
Lemma for_range_announces {A} (body : nat → A → M R Mat A) :
  (∀ ts a h, steps_printed (trace (body ts a h)) = [ts]) →
  ∀ n first acc h,
    let r := for_range first n body acc h in
    ∃ k, k ≤ n ∧ steps_printed (trace r) = seq first k ∧
         (∀ a, outcome r = Ret a → k = n) ∧
         (∀ e, outcome r = Raise e → 0 < k).
Proof.
  intros Hbody. induction n as [|n IH]; intros first acc h; simpl.
  - exists 0. split_and!; [lia | done | done | done].
  - unfold bind. specialize (Hbody first acc h).
    destruct (body first acc h) as [[a|e] h1 t1]; cbn [outcome final trace] in *.
    + destruct (IH (S first) a h1) as (k & Hk & Hs & Hret & Hraise).
      exists (S k). split_and!.
      * lia.
      * by rewrite steps_printed_app, Hbody, Hs.
      * intros b Hb. by rewrite (Hret b Hb).
      * intros; lia.
    + exists 1. split_and!; [lia | done | done | intros; lia].
Qed.

(** X5: in each of the three programs a run of the time loop, whatever its
    outcome, announces the time steps 1, 2, ... in order and without gaps: all
    [ndt] of them if the loop returns, and up to the step that raised if it
    raises; no later step is begun. *)
Theorem time_steps_of_a_run :
  (∀ w ndt h, announces_steps ndt (obstacles_loop w ndt h)) ∧
  (∀ w th ndt h, announces_steps ndt (plumes_loop w th ndt h)) ∧
  (∀ w th show_plot ndt h, announces_steps ndt (cavity_loop w th show_plot ndt h)).
Proof.
  split_and!.
  - intros w ndt h. unfold announces_steps, obstacles_loop.
    apply (for_range_announces (λ ts _, obstacles_step w ts)
             (λ ts _ h0, obstacles_step_announced w ts h0) ndt 1 tt h).
  - intros w th ndt h. unfold announces_steps, plumes_loop.
    apply (for_range_announces (λ ts _, plumes_step w th ts)
             (λ ts _ h0, plumes_step_announced w th ts h0) ndt 1 tt h).
  - intros w th show_plot ndt h. unfold announces_steps, cavity_loop.
    apply (for_range_announces (cavity_step w th show_plot)
             (λ ts a h0, cavity_step_announced w th show_plot ts a h0) ndt 1
             (np.zeros (rc w)) h).
Qed.

(** *** The phases of a step of the obstacle program *)


(** *** Checks and plots only read *)

Lemma same_outside_nil h h' : same_outside [] h h' → h' = h.
Proof.
  intros (Hk & _ & Hf). destruct h as [f k], h' as [f' k']; simpl in *. f_equal; [|done].
  apply map_eq. intros l. apply Hf. set_solver.
Qed.

(** The checks at the end of a time step and the plots leave the store
    as they found it, whether they return or raise. *)
Theorem checks_leave_the_store w phi h :
  final (diagnostics (Mat := Mat) w h) = h ∧ final (plot (Mat := Mat) w phi h) = h.
Proof.
  split; apply same_outside_nil; [apply modifies_diagnostics | apply modifies_plot].
Qed.


(** *** Plots *)

Lemma plots_filter (tr : list (event R Mat)) :
  plots tr = length (List.filter (is_call "plot_isolines") tr).
Proof. reflexivity. Qed.

Lemma plot_plots w phi h h' (tr : list (event R Mat)) :
  runs (plot w phi) h tt h' tr → length (List.filter (is_call "plot_isolines") tr) = 1.
Proof. intros Hr. by apply runs_plot_trace in Hr as (args & ->). Qed.

End loops.

(** Past the next statement of a step, which makes no plot. *)
Ltac pass_plotless Hr :=
  match type of Hr with
  | runs (bind ?m ?k) _ _ _ _ =>
      let Hn := fresh "Hn" in
      assert (Hn : never (is_call "plot_isolines") m)
        by (unfold store_old, temperature, momentum, pressure_call, calc_p, correct,
              diagnostics; never_);
      let Hr' := fresh "Hr" in
      let Heq := fresh "Heq" in
      destruct (runs_bind_never _ _ _ _ _ _ _ Hn Hr) as (? & ? & ? & Hr' & Heq);
      clear Hr Hn; rename Hr' into Hr; rewrite Heq; clear Heq
  end.

Section plots.
Context {R Mat : Type} `{Num R} `{!Discretization R Mat} `{!Solver R Mat} `{!Display R}.
Implicit Types (h : heap R) (w : @flow R) (th : heat).

Lemma obstacles_step_plots w ts h h' tr :
  runs (obstacles_step w ts) h tt h' tr →
  plots tr = if decide (ts mod 20 = 0) then 1 else 0.
Proof.
  intros Hr. unfold obstacles_step in Hr. rewrite plots_filter.
  do 9 pass_plotless Hr.
  destruct (decide (ts mod 20 = 0)).
  - by apply plot_plots in Hr.
  - by apply runs_ret in Hr as (_ & _ & ->).
Qed.

Lemma plumes_step_plots w th ts h h' tr :
  runs (plumes_step w th ts) h tt h' tr →
  plots tr = if decide (ts mod 150 = 0) then 2 else 0.
Proof.
  intros Hr. unfold plumes_step in Hr. rewrite plots_filter.
  do 12 pass_plotless Hr.
  destruct (decide (ts mod 150 = 0)).
  - run_step Hr as [] Hq.
    rewrite List.filter_app, length_app.
    apply plot_plots in Hq. apply plot_plots in Hr. by rewrite Hq, Hr.
  - by apply runs_ret in Hr as (_ & _ & ->).
Qed.

Lemma cavity_step_plots w th show_plot ts p_tot h p_tot' h' tr :
  runs (cavity_step w th show_plot ts p_tot) h p_tot' h' tr →
  plots tr = if show_plot then if decide (ts mod 20 = 0) then 1 else 0 else 0.
Proof.
  intros Hr. unfold cavity_step in Hr. rewrite plots_filter.
  do 14 pass_plotless Hr.
  run_step Hr as [] Hq.
  apply runs_ret in Hr as (_ & _ & ->). rewrite app_nil_r.
  destruct show_plot; [destruct (decide (ts mod 20 = 0))|].
  - by apply plot_plots in Hq.
  - by apply runs_ret in Hq as (_ & _ & ->).
  - by apply runs_ret in Hq as (_ & _ & ->).
Qed.

(** The plots of a loop that returns are those of its steps. *)
Lemma for_range_plots {A} (c : nat → nat) (body : nat → A → M R Mat A) :
  (∀ ts acc h a h' tr, runs (body ts acc) h a h' tr → plots tr = c ts) →
  ∀ n first acc h a h' tr,
    runs (for_range first n body acc) h a h' tr →
    plots tr = sum_list_with c (seq first n).
Proof.
  intros Hbody. induction n as [|n IH]; intros first acc h a h' tr Hr; simpl in Hr.
  - by apply runs_ret in Hr as (_ & _ & ->).
  - run_step Hr as acc' H1. cbn [seq sum_list_with].
    rewrite plots_filter, List.filter_app, length_app, <- !plots_filter.
    by rewrite (Hbody _ _ _ _ _ _ H1), (IH _ _ _ _ _ _ Hr).
Qed.

(** Among 1, ..., n there are n / q multiples of q. *)
Lemma div_succ n q :
  q ≠ 0 → S n / q = n / q + (if decide (S n mod q = 0) then 1 else 0).
Proof.
  intros Hq.
  pose proof (Nat.div_mod_eq n q) as E1. pose proof (Nat.div_mod_eq (S n) q) as E2.
  pose proof (Nat.mod_upper_bound n q Hq) as B1.
  pose proof (Nat.mod_upper_bound (S n) q Hq) as B2.
  destruct (decide (S n mod q = 0)) as [Hz|Hz]; nia.
Qed.

Lemma multiples_up_to k q n :
  q ≠ 0 →
  sum_list_with (λ ts, if decide (ts mod q = 0) then k else 0) (seq 1 n) = k * (n / q).
Proof.
  intros Hq. induction n as [|n IH].
  - simpl. rewrite Nat.Div0.div_0_l. lia.
  - rewrite seq_S, sum_list_with_app, IH. cbn [sum_list_with].
    change (1 + n) with (S n). rewrite (div_succ n q Hq).
    destruct (decide (S n mod q = 0)); lia.
Qed.

(** X6: a run of the time loop that returns has plotted once every 20 steps
    in the obstacle program, twice every 150 steps in the plumes program, and
    in the cavity program once every 20 steps if [show_plot] is set and never
    if it is not. *)
Theorem plots_of_a_run :
  (∀ w ndt h h' tr,
     runs (obstacles_loop w ndt) h tt h' tr → plots tr = ndt / 20) ∧
  (∀ w th ndt h h' tr,
     runs (plumes_loop w th ndt) h tt h' tr → plots tr = 2 * (ndt / 150)) ∧
  (∀ w th show_plot ndt h p_tot h' tr,
     runs (cavity_loop w th show_plot ndt) h p_tot h' tr →
     plots tr = if show_plot then ndt / 20 else 0).
Proof.
  split_and!.
  - intros w ndt h h' tr Hr. unfold obstacles_loop in Hr.
    rewrite (for_range_plots (λ ts, if decide (ts mod 20 = 0) then 1 else 0)
               _ (λ ts _ h0 u h1 t1,
                    match u with tt => obstacles_step_plots w ts h0 h1 t1 end)
               _ _ _ _ _ _ _ Hr).
    rewrite multiples_up_to by done. lia.
  - intros w th ndt h h' tr Hr. unfold plumes_loop in Hr.
    rewrite (for_range_plots (λ ts, if decide (ts mod 150 = 0) then 2 else 0)
               _ (λ ts _ h0 u h1 t1,
                    match u with tt => plumes_step_plots w th ts h0 h1 t1 end)
               _ _ _ _ _ _ _ Hr).
    by rewrite multiples_up_to.
  - intros w th show_plot ndt h p_tot h' tr Hr. unfold cavity_loop in Hr.
    destruct show_plot.
    + rewrite (for_range_plots (λ ts, if decide (ts mod 20 = 0) then 1 else 0)
                 _ (λ ts a h0 a' h1 t1, cavity_step_plots w th true ts a h0 a' h1 t1)
                 _ _ _ _ _ _ _ Hr).
      rewrite multiples_up_to by done. lia.
    + rewrite (for_range_plots (λ _, 0)
                 _ (λ ts a h0 a' h1 t1, cavity_step_plots w th false ts a h0 a' h1 t1)
                 _ _ _ _ _ _ _ Hr).
      clear. by induction (seq 1 ndt).
Qed.

(** *** The pressure sum of the cavity program *)

(** X7: a step of the cavity program that returns hands on its pressure sum
    raised by the pressure field it leaves: [p_tot + p.val], with the field
    as [calc_p] left it, which the corrections after it do not write. *)
Theorem cavity_step_adds_pressure w th show_plot ts p_tot h p_tot' h' tr :
  transport_writes_values →
  val (p w) ∉ footprint3 (uc w, vc w, wc w) ++ footprint3 (uf w, vf w, wf w) →
  runs (cavity_step w th show_plot ts p_tot) h p_tot' h' tr →
  ∃ p_val, floats h' !! val (p w) = Some p_val ∧ np.binop fadd p_tot p_val = Ret p_tot'.
Proof.
  intros (_ & _ & Hcorr) Hp Hr. unfold cavity_step in Hr.
  do 9 (let H := fresh "H" in run_step Hr as ? H; clear H).
  run_step Hr as p_val Hpv at h4 t4. run_step Hr as p_sum Hps.
  run_step Hr as ? Hc1 at h5 t5. run_step Hr as ? Hc2 at h6 t6.
  run_step Hr as ? Hdiag at h7 t7. run_step Hr as ? Hplot at h8 t8.
  apply runs_load in Hpv as (Hpv & -> & ->).
  apply runs_lift in Hps as (Hps & -> & ->).
  repeat match goal with u : unit |- _ => destruct u end.
  apply runs_correct in Hc1 as (Hcc & _). apply runs_correct in Hc2 as (Hcf & _).
  apply runs_diagnostics in Hdiag as (-> & _).
  apply runs_ret in Hr as (-> & -> & _).
  assert (h8 = h6) as ->.
  { destruct show_plot; [destruct (decide (ts mod 20 = 0))|].
    - by apply runs_plot in Hplot as (-> & _).
    - by apply runs_ret in Hplot as (_ & -> & _).
    - by apply runs_ret in Hplot as (_ & -> & _). }
  exists p_val. split; [|done].
  match type of Hcc with corr_uvw ?uvw _ _ _ _ _ ?hh = _ =>
    destruct (Hcorr uvw (p w) (rho w) (dt w) (dx w, dy w, dz w) (obst w) hh)
      as (_ & _ & Hk1)
  end.
  match type of Hcf with corr_uvw ?uvw _ _ _ _ _ ?hh = _ =>
    destruct (Hcorr uvw (p w) (rho w) (dt w) (dx w, dy w, dz w) (obst w) hh)
      as (_ & _ & Hk2)
  end.
  rewrite Hcc in Hk1. rewrite Hcf in Hk2. cbn [snd] in Hk1, Hk2.
  rewrite Hk2, Hk1; [done | |]; intros Hin; apply Hp, elem_of_app; auto.
Qed.

End plots.

(** ** More on the cube *)

Section cube_more.
Import Standin.

Abbreviation cube_uvwf := (uf cube_flow, vf cube_flow, wf cube_flow).
Abbreviation cube_dxyz := (dx cube_flow, dy cube_flow, dz cube_flow).
Abbreviation ones := (np.full (3, 3, 3) 1%float).

(** On the grid with no cell the pressure step raises before it solves. *)
Lemma calc_p_empty_grid_void :
  let r := cube_calc_p converged void_heap in
  outcome r = Raise ValueError ∧
  final r = void_heap ∧
  calls (trace r) = ["create_matrix"; "vol_balance"] ∧
  printed (trace r) = [].
Proof.
  pose proof (calc_p_empty_grid (Solver0 := converged)
                (p cube_flow) cube_uvwf (rho cube_flow) (dt cube_flow) cube_dxyz
                (obst cube_flow) void_heap (np.zeros (0, 3, 3)) void_p_view
                (np.full (0, 3, 3) 1%float)
                (np.full (0, 3, 3) 1%float, np.full (0, 3, 3) 1%float,
                 np.full (0, 3, 3) 1%float)
                (NdArray (0, 3, 3) []) void_uvwf_view) as W.
  apply W.
  - vm_compute. reflexivity.
  - unfold runs. vm_compute. reflexivity.
  - vm_compute. reflexivity.
  - unfold runs. vm_compute. reflexivity.
  - vm_compute. reflexivity.
  - unfold runs. vm_compute. reflexivity.
  - vm_compute. reflexivity.
  - vm_compute. reflexivity.
  - vm_compute. reflexivity.
Defined.

(** With a solver that hands back 26 entries for 27 cells the pressure step
    raises, and the store is as it was. *)
Lemma calc_p_wrong_length_cube :
  let r := cube_calc_p short cube_moving in
  outcome r = Raise ValueError ∧
  final r = cube_moving ∧
  calls (trace r) = ["create_matrix"; "vol_balance"; "bicgstab"] ∧
  printed (trace r) =
    [Print "Maximum volume error before correction: " 18%float;
     Print "Volume imbalance before correction    : " 171%float].
Proof.
  pose proof (calc_p_wrong_length (Solver0 := short)
                (p cube_flow) cube_uvwf (rho cube_flow) (dt cube_flow) cube_dxyz
                (obst cube_flow) cube_moving (np.zeros (3, 3, 3)) cube_p_view
                ones (ones, ones, ones) (NdArray (3, 3, 3) centre_mask) cube_uvwf_view
                18%float (data cube_iterate)) as W.
  destruct W as (W1 & W2 & W3 & W4).
  - vm_compute. reflexivity.
  - unfold runs. vm_compute. reflexivity.
  - vm_compute. reflexivity.
  - unfold runs. vm_compute. reflexivity.
  - vm_compute. reflexivity.
  - unfold runs. vm_compute. reflexivity.
  - vm_compute. reflexivity.
  - vm_compute. reflexivity.
  - vm_compute. lia.
  - cbv zeta. split_and!; [exact W1 | exact W2 | exact W3 |].
    etransitivity; [exact W4|]. vm_compute. reflexivity.
Defined.

(** With a mask of another shape the stand-in for [obst_zero_val] raises,
    and the pressure step ends with the anchored iterate in [p.val]. *)
Lemma calc_p_partial_result_cube :
  let r := cube_calc_p converged cube_bent in
  outcome r = Raise ValueError ∧
  final r = with_val (p cube_flow) (anchor cube_iterate) cube_bent ∧
  floats cube_bent !! val (p cube_flow) = Some (np.zeros (3, 3, 3)).
Proof.
  pose proof (calc_p_partial_result (Solver0 := converged)
                (p cube_flow) cube_uvwf (rho cube_flow) (dt cube_flow) cube_dxyz
                (obst cube_flow) cube_bent (np.zeros (3, 3, 3)) cube_p_view
                ones (ones, ones, ones) (NdArray (1, 1, 1) [1%float]) cube_uvwf_view
                18%float (data cube_iterate) cube_iterate) as W.
  destruct W as (W1 & _).
  - vm_compute. reflexivity.
  - unfold runs. vm_compute. reflexivity.
  - vm_compute. reflexivity.
  - unfold runs. vm_compute. reflexivity.
  - vm_compute. reflexivity.
  - unfold runs. vm_compute. reflexivity.
  - by vm_compute.
  - vm_compute. reflexivity.
  - vm_compute. reflexivity.
  - vm_compute. reflexivity.
  - cbv zeta. destruct (W1 ValueError) as (Ho & Hf).
    + vm_compute. reflexivity.
    + vm_compute. reflexivity.
    + split_and!; [exact Ho | exact Hf | vm_compute; reflexivity].
Defined.


(** The first step of the cavity program on the cube: the pressure sum it
    hands on is the pressure field it leaves, added to zero. *)
Lemma cavity_step_adds_pressure_cube :
  let r := cavity_step (Solver0 := converged) cube_flow cube_heat false 1
             (np.zeros (3, 3, 3)) cube_moving in
  ∃ p_val,
    floats (final r) !! val (p cube_flow) = Some p_val ∧
    np.item p_val (0, 0, 0) = Some (-0x1.5555555555555p+2)%float ∧
    lift (Mat := unit) (np.binop fadd (np.zeros (3, 3, 3)) p_val) (final r) =
    Run (outcome r) (final r) [].
Proof.
  cbv zeta.
  destruct (cavity_step_adds_pressure (Solver0 := converged) cube_flow cube_heat false 1
              (np.zeros (3, 3, 3)) cube_moving
              (result_or (np.zeros (0, 0, 0))
                 (cavity_step (Solver0 := converged) cube_flow cube_heat false 1
                    (np.zeros (3, 3, 3)) cube_moving))
              (final (cavity_step (Solver0 := converged) cube_flow cube_heat false 1
                        (np.zeros (3, 3, 3)) cube_moving))
              (trace (cavity_step (Solver0 := converged) cube_flow cube_heat false 1
                        (np.zeros (3, 3, 3)) cube_moving)))
    as (p_val & Hp & Hs).
  - apply standin_transport.
  - by_evaluation.
  - unfold runs. vm_compute. reflexivity.
  - exists p_val. split; [exact Hp|]. split.
    + vm_compute in Hp. injection Hp as <-. vm_compute. reflexivity.
    + rewrite Hs. vm_compute. reflexivity.
Defined.

(** Forty steps of the obstacle program on the cube: two plots. *)
Lemma plots_of_a_run_cube :
  let r := obstacles_loop (Solver0 := converged) cube_flow 40 cube_moving in
  outcome r = Ret tt ∧ plots (trace r) = 2.
Proof.
  cbv zeta. split; [vm_compute; reflexivity|].
  apply (proj1 (plots_of_a_run (Solver0 := converged)) cube_flow 40 cube_moving
           (final (obstacles_loop (Solver0 := converged) cube_flow 40 cube_moving))).
  unfold runs. vm_compute. reflexivity.
Defined.

End cube_more.
